(** * Leaderboard selectors: a shallow embedding of [Leaderboard.cpp] and
    [PlayerStream.cpp], and the properties of the three ranking selectors.

    Vectors are lists, accessed through [!!] and [<[ _ := _ ]>]; an access
    outside the vector (undefined behaviour in C++) is an explicit error of
    the [result] monad, as is the exception thrown by an exhausted stream.
    A function that takes a vector or a stream by reference returns its
    final state next to its result.  Loops carry a fuel argument; the
    theorems show that the fuel handed over by the callers is never used up.

    Sizes, counts and the indices of [replaceMin] are natural numbers; the
    [int] indices of [partition] and [quickSelect], which start at [low - 1]
    and can reach -1, are integers, converted from [size_t] where the source
    converts.  An [int] expression that leaves the range of [int] is an
    error.  Levels are only compared.  [Offline::quickSort] is not called by
    any selector (its call in [quickSelectRank] is commented out); it is
    embedded for its own sake. *)

From stdpp Require Import base numbers list sorting gmap strings.

Open Scope Z_scope.
Open Scope nat_scope.

(** ** Errors and the result monad *)

Inductive error : Type :=
  | Exhausted    (* std::runtime_error("No more players in stream") *)
  | OutOfRange   (* read or write outside a vector *)
  | DivByZero    (* x % 0 *)
  | Overflow     (* an int expression outside the range of int *)
  | OutOfFuel.   (* loop bound of the model exceeded *)

Inductive result (A : Type) : Type :=
  | Ok (a : A)
  | Err (e : error).
Arguments Ok {A} a.
Arguments Err {A} e.

#[global] Instance result_ret : MRet result := λ A a, Ok a.
#[global] Instance result_bind : MBind result := λ A B f m,
  match m with
  | Ok a => f a
  | Err e => Err e
  end.

Definition is_Ok {A} (r : result A) : Prop := ∃ a, r = Ok a.

(** ** Players *)

(** Modelled from the spec: [Player.hpp] is not part of the sources.  A ranked
    entity carries an ordering key [level_] (the only member the selectors
    read) and an opaque payload, here a name.  The key is an unsigned integer
    that is only ever compared, never computed with. *)
Record Player : Type := mkPlayer { name_ : string; level_ : N }.

#[global] Instance Player_eq_dec : EqDecision Player.
Proof. solve_decision. Defined.

(** Modelled from the spec: [Player::operator<], used by the default
    [std::make_heap], [std::pop_heap] and [std::sort]; the total order is
    defined solely by the level. *)
Definition player_lt (a b : Player) : bool := (level_ a <? level_ b)%N.

(** The lambda [[](const Player& a, const Player& b) { return a.level_ > b.level_; }]
    that turns the standard heap algorithms into min-heap algorithms. *)
Definition level_gt (a b : Player) : bool := (level_ b <? level_ a)%N.

(** The lambda [[](const Player& a, const Player& b) { return a.level_ < b.level_; }]. *)
Definition level_lt (a b : Player) : bool := (level_ a <? level_ b)%N.

(** ** Machine integers at the places where the source converts *)

(** Arithmetic in [size_t] wraps around, and so does the conversion of a
    [size_t] to an [int] parameter. *)
Definition size_t_of_Z (z : Z) : Z := (z mod 2 ^ 64)%Z.
Definition int_of_Z (z : Z) : Z := ((z + 2 ^ 31) mod 2 ^ 32 - 2 ^ 31)%Z.

Definition INT_MIN : Z := (- 2 ^ 31)%Z.
Definition INT_MAX : Z := (2 ^ 31 - 1)%Z.

(** The value of an [int] expression whose exact value is [z]: signed
    overflow is undefined behaviour. *)
Definition int_val (z : Z) : result Z :=
  if ((INT_MIN <=? z) && (z <=? INT_MAX))%Z then Ok z else Err Overflow.

(** The same for an [int] expression that is never negative. *)
Definition int_nat (n : nat) : result nat :=
  if (Z.of_nat n <=? INT_MAX)%Z then Ok n else Err Overflow.

(** ** Ranking outcome *)

(** [elapsed_] is wall-clock time and is left out. *)
Record RankingResult : Type := mkRankingResult {
  top_ : list Player;
  cutoffs_ : gmap nat N
}.

(** ** The vector-backed player stream, [PlayerStream.cpp] *)

(** [Online::rankIncoming] takes a [PlayerStream&]; [VectorPlayerStream] is the
    stream the sources implement. *)
Module VectorPlayerStream.

Record t : Type := mk { players_ : list Player; currentIndex_ : nat }.

(** The constructor: a copy of the players and a cursor at zero. *)
Definition new (players : list Player) : t :=
  {| players_ := players; currentIndex_ := 0 |}.

(** [VectorPlayerStream::nextPlayer]: throws at the end, otherwise returns
    [players_[currentIndex_++]]. *)
Definition nextPlayer (s : t) : result (Player * t) :=
  if length (players_ s) <=? currentIndex_ s then Err Exhausted
  else match players_ s !! currentIndex_ s with
       | Some p => Ok (p, {| players_ := players_ s;
                             currentIndex_ := S (currentIndex_ s) |})
       | None => Err OutOfRange
       end.

(** [VectorPlayerStream::remaining]: [players_.size() - currentIndex_] in
    [size_t] arithmetic. *)
Definition remaining (s : t) : Z :=
  size_t_of_Z (Z.of_nat (length (players_ s)) - Z.of_nat (currentIndex_ s)).

(** The states a stream can be in: the cursor never passes the end, and a
    vector has fewer than 2^64 elements. *)
Definition wf (s : t) : Prop :=
  currentIndex_ s ≤ length (players_ s) ∧
  (Z.of_nat (length (players_ s)) < 2 ^ 64)%Z.

(** The entities not yet handed out. *)
Definition pending (s : t) : list Player :=
  drop (currentIndex_ s) (players_ s).

End VectorPlayerStream.

(** ** Vector accesses *)

(** [v[i]] for an [int] index. *)
Definition vec_at (v : list Player) (i : Z) : result Player :=
  if (i <? 0)%Z then Err OutOfRange
  else match v !! Z.to_nat i with
       | Some p => Ok p
       | None => Err OutOfRange
       end.

(** [std::swap(v[i], v[j])]. *)
Definition vec_swap (v : list Player) (i j : Z) : result (list Player) :=
  a ← vec_at v i;
  b ← vec_at v j;
  Ok (<[Z.to_nat i := b]> (<[Z.to_nat j := a]> v)).

(** [*std::next(first, i)] for an index that is never negative. *)
Definition iter_at (v : list Player) (i : nat) : result Player :=
  match v !! i with
  | Some p => Ok p
  | None => Err OutOfRange
  end.

(** [std::iter_swap(std::next(first, i), std::next(first, j))]. *)
Definition iter_swap (v : list Player) (i j : nat) : result (list Player) :=
  a ← iter_at v i;
  b ← iter_at v j;
  Ok (<[i := b]> (<[j := a]> v)).

(** [v.front()]. *)
Definition front (v : list Player) : result Player :=
  match v with
  | p :: _ => Ok p
  | [] => Err OutOfRange
  end.

(** ** The standard algorithms the selectors call

    [std::sort], [std::make_heap] and [std::pop_heap] are library code.  They
    are modelled by the textbook algorithms that meet the contracts of the
    C++ standard: a sort, and the array heap built and repaired by sifting
    down.  [comp] is the strict "less than" the algorithm is called with.
    Neither algorithm is stable, so among entities of equal level the order
    of the payloads is a choice of the model; every theorem below speaks of
    levels. *)

Section StdAlgorithms.
Context (comp : Player → Player → bool).

(** [a] may stand before [b] in a range sorted by [comp]. *)
Definition not_after (a b : Player) : Prop := comp b a = false.

#[global] Instance not_after_dec a b : Decision (not_after a b).
Proof. unfold not_after. apply _. Defined.

Definition std_sort (v : list Player) : list Player :=
  merge_sort not_after v.

(** [comp v[i] v[j]], false when an index is outside the vector. *)
Definition below (v : list Player) (i j : nat) : bool :=
  match v !! i, v !! j with
  | Some a, Some b => comp a b
  | _, _ => false
  end.

Definition swap (v : list Player) (i j : nat) : list Player :=
  match v !! i, v !! j with
  | Some a, Some b => <[i := b]> (<[j := a]> v)
  | _, _ => v
  end.

(** Among [cur] and its two children, the index of an entry that none of
    the three is below; [cur] itself unless a child is above it. *)
Definition sift_best (v : list Player) (cur : nat) : nat :=
  let left := 2 * cur + 1 in
  let right := 2 * cur + 2 in
  let best := if below v cur left then left else cur in
  if below v best right then right else best.

(** Sift the entry at [cur] down until neither child is above it. *)
Fixpoint sift_down_loop (fuel : nat) (v : list Player) (cur : nat) : list Player :=
  match fuel with
  | 0 => v
  | S fuel' =>
      let best := sift_best v cur in
      if best =? cur then v
      else sift_down_loop fuel' (swap v cur best) best
  end.

Definition sift_down (v : list Player) (cur : nat) : list Player :=
  sift_down_loop (S (length v)) v cur.

(** [std::make_heap(v.begin(), v.end(), comp)]: sift down every inner node,
    last one first. *)
Definition make_heap (v : list Player) : list Player :=
  foldl sift_down v (reverse (seq 0 (length v / 2))).

(** [std::pop_heap(v.begin(), v.begin() + m, comp)]: the root goes to
    position [m - 1], the entry that was there goes to the root and is
    sifted down in the heap of the first [m - 1] entries. *)
Definition pop_heap (v : list Player) (m : nat) : list Player :=
  let heap := take m v in
  match heap, last heap with
  | root :: _, Some bottom =>
      sift_down (<[0 := bottom]> (take (m - 1) heap)) 0 ++ root :: drop m v
  | _, _ => v
  end.
End StdAlgorithms.

(** ** Offline selectors *)

Module Offline.

(** [std::floor(0.1 * players.size())], computed in [double].  The double
    nearest to 0.1 is 0.1 * (1 + 2^-54); for every size below 2^50 the
    rounded product is at least the integer quotient and below its
    successor, so that its floor is the integer quotient.  Larger vectors
    are not considered. *)
Definition tenPer (players : list Player) : nat := length players / 10.

(** [Offline::heapRank]: the outcome, and the vector as the call leaves it. *)
Definition heapRank (players : list Player) : RankingResult * list Player :=
  let tenPer := tenPer players in
  let players := make_heap player_lt players in
  let players :=
    foldl (λ v i, pop_heap player_lt v (length v - i)) players (seq 0 tenPer) in
  let top_ := drop (length players - tenPer) players in
  (mkRankingResult top_ ∅, players).

(** The loop [for (int it = low; it <= high - 1; it++)] of
    [Offline::partition]. *)
Fixpoint partition_loop (fuel : nat) (players : list Player) (pivot : Player)
    (high i it : Z) : result (list Player * Z) :=
  bound ← int_val (high - 1);
  if (it <=? bound)%Z then
    match fuel with
    | 0 => Err OutOfFuel
    | S fuel' =>
        p ← vec_at players it;
        if (level_ pivot <=? level_ p)%N then
          i ← int_val (i + 1);
          players ← vec_swap players i it;
          it ← int_val (it + 1);
          partition_loop fuel' players pivot high i it
        else
          it ← int_val (it + 1);
          partition_loop fuel' players pivot high i it
    end
  else Ok (players, i).

(** [Offline::partition], the Lomuto scheme with the last entry as pivot:
    the vector as the call leaves it, and the final pivot position. *)
Definition partition (players : list Player) (low high : Z)
    : result (list Player * Z) :=
  pivot ← vec_at players high;
  i ← int_val (low - 1);
  '(players, i) ← partition_loop (Z.to_nat (high - low)) players pivot high i low;
  pivotIndex ← int_val (i + 1);
  players ← vec_swap players pivotIndex high;
  Ok (players, pivotIndex).

(** The loop [while (left <= right)] of [Offline::quickSelect]. *)
Fixpoint quickSelect_loop (fuel : nat) (players : list Player)
    (left right cutoffIndex : Z) : result (list Player) :=
  if (left <=? right)%Z then
    match fuel with
    | 0 => Err OutOfFuel
    | S fuel' =>
        '(players, pivotIndex) ← partition players left right;
        if (pivotIndex =? cutoffIndex)%Z then Ok players
        else if (pivotIndex >? cutoffIndex)%Z then
          right ← int_val (pivotIndex - 1);
          quickSelect_loop fuel' players left right cutoffIndex
        else
          left ← int_val (pivotIndex + 1);
          quickSelect_loop fuel' players left right cutoffIndex
    end
  else Ok players.

Definition quickSelect (players : list Player) (left right cutoffIndex : Z)
    : result (list Player) :=
  quickSelect_loop (length players) players left right cutoffIndex.

(** [Offline::quickSort]: partition, then sort the part before the pivot and
    the part after it.  The recursion is as deep as the range is long at
    most. *)
Fixpoint quickSort_rec (fuel : nat) (players : list Player) (low high : Z)
    : result (list Player) :=
  if (low <? high)%Z then
    match fuel with
    | 0 => Err OutOfFuel
    | S fuel' =>
        '(players, part) ← partition players low high;
        before ← int_val (part - 1);
        players ← quickSort_rec fuel' players low before;
        after ← int_val (part + 1);
        quickSort_rec fuel' players after high
    end
  else Ok players.

Definition quickSort (players : list Player) (low high : Z)
    : result (list Player) :=
  quickSort_rec (length players) players low high.

(** [Offline::quickSelectRank]: [players.size() - 1] is computed in [size_t]
    and, like [cutoffIndex], converted to the [int] parameters. *)
Definition quickSelectRank (players : list Player)
    : result (RankingResult * list Player) :=
  let tenPer := tenPer players in
  let cutoffIndex := length players - tenPer in
  players ← quickSelect players 0%Z
              (int_of_Z (size_t_of_Z (Z.of_nat (length players) - 1)))
              (int_of_Z (Z.of_nat cutoffIndex));
  let players :=
    take cutoffIndex players ++ std_sort player_lt (drop cutoffIndex players) in
  let topPlayers := drop cutoffIndex players in
  Ok (mkRankingResult topPlayers ∅, players).

End Offline.

(** ** Streaming selector *)

Module Online.

(** The loop [while (true)] of [Online::replaceMin]; [currentPlayer], [left],
    [right] and [smallest] are [int] ([auto currentPlayer = 0]). *)
Fixpoint replaceMin_loop (fuel : nat) (v : list Player)
    (heapSize currentPlayer : nat) : result (list Player) :=
  match fuel with
  | 0 => Err OutOfFuel
  | S fuel' =>
      left ← int_nat (2 * currentPlayer + 1);
      right ← int_nat (2 * currentPlayer + 2);
      let smallest := currentPlayer in
      smallest ←
        (if left <? heapSize then
           l ← iter_at v left;
           s ← iter_at v smallest;
           Ok (if (level_ l <? level_ s)%N then left else smallest)
         else Ok smallest);
      smallest ←
        (if right <? heapSize then
           r ← iter_at v right;
           s ← iter_at v smallest;
           Ok (if (level_ r <? level_ s)%N then right else smallest)
         else Ok smallest);
      if smallest =? currentPlayer then Ok v
      else
        v ← iter_swap v currentPlayer smallest;
        replaceMin_loop fuel' v heapSize smallest
  end.

(** [Online::replaceMin(v.begin(), v.end(), target)]: the target takes the
    place of the root and is sifted down. *)
Definition replaceMin (v : list Player) (target : Player) : result (list Player) :=
  _ ← iter_at v 0;
  let v := <[0 := target]> v in
  let heapSize := length v in
  replaceMin_loop (S heapSize) v heapSize 0.

(** The variables of [rankIncoming] that live across loop iterations. *)
Record state : Type := mkState {
  stream : VectorPlayerStream.t;
  top_players : list Player;
  cutoffs : gmap nat N;
  players_processed : nat
}.

(** The loop [while (stream.remaining() > 0)] of [Online::rankIncoming]. *)
Fixpoint rankIncoming_loop (fuel : nat) (reporting_interval : nat) (st : state)
    : result state :=
  if (0 <? VectorPlayerStream.remaining (stream st))%Z then
    match fuel with
    | 0 => Err OutOfFuel
    | S fuel' =>
        '(p, stream) ← VectorPlayerStream.nextPlayer (stream st);
        let players_processed := S (players_processed st) in
        top_players ←
          (if length (top_players st) <? reporting_interval then
             let top_players := top_players st ++ [p] in
             if length top_players =? reporting_interval
             then Ok (make_heap level_gt top_players)
             else Ok top_players
           else
             f ← front (top_players st);
             if (level_ f <? level_ p)%N
             then replaceMin (top_players st) p
             else Ok (top_players st));
        cutoffs ←
          (if reporting_interval =? 0 then Err DivByZero
           else if players_processed mod reporting_interval =? 0 then
             f ← front top_players;
             Ok (<[players_processed := level_ f]> (cutoffs st))
           else Ok (cutoffs st));
        rankIncoming_loop fuel' reporting_interval
          (mkState stream top_players cutoffs players_processed)
    end
  else Ok st.

(** [Online::rankIncoming]: the outcome, and the stream as the call leaves
    it. *)
Definition rankIncoming (stream : VectorPlayerStream.t) (reporting_interval : nat)
    : result (RankingResult * VectorPlayerStream.t) :=
  st ← rankIncoming_loop (length (VectorPlayerStream.players_ stream))
         reporting_interval (mkState stream [] ∅ 0);
  cutoffs ←
    (if bool_decide (top_players st ≠ []) then
       f ← front (top_players st);
       Ok (<[players_processed st := level_ f]> (cutoffs st))
     else Ok (cutoffs st));
  let top_players := std_sort level_lt (top_players st) in
  Ok (mkRankingResult top_players cutoffs, Online.stream st).

End Online.

(** ** Vocabulary of the specification *)

Definition levels (v : list Player) : list N := level_ <$> v.

(** The levels of the [k] entities of greatest level in [v], ascending: the
    last [k] entries of the sorted levels (all of them when [v] has fewer). *)
Definition top_levels (k : nat) (v : list Player) : list N :=
  drop (length v - k) (merge_sort N.le (levels v)).

(** The [k] least levels of [v], ascending. *)
Definition bottom_levels (k : nat) (v : list Player) : list N :=
  take k (merge_sort N.le (levels v)).

Definition minimum (l : list N) : option N :=
  match l with
  | [] => None
  | x :: l' => Some (foldr N.min x l')
  end.

(** Ascending by level: every adjacent pair is non-decreasing. *)
Definition ascending (v : list Player) : Prop := Sorted N.le (levels v).

(** The player of level [n] in the concrete runs. *)
Definition player (n : N) : Player := mkPlayer "p" n.

(** ** Array heaps

    The children of node [i] are the nodes [2i+1] and [2i+2].  [comp] is the
    strict order the heap algorithm was called with: in a heap no node is
    [comp]-below one of its children. *)

Definition heap_at (comp : Player → Player → bool) (v : list Player) (i : nat) : Prop :=
  ∀ c x y, c = 2 * i + 1 ∨ c = 2 * i + 2 →
           v !! i = Some x → v !! c = Some y → comp x y = false.

(** The heap condition at every node from [lo] on. *)
Definition heap_from (comp : Player → Player → bool) (v : list Player) (lo : nat) : Prop :=
  ∀ i, lo ≤ i → heap_at comp v i.

Definition is_heap (comp : Player → Player → bool) (v : list Player) : Prop :=
  heap_from comp v 0.

(** ** The streaming loop, iteration by iteration

    What one iteration of [Online.rankIncoming_loop] does to the buffer, to the
    checkpoints and to the counter, as functions of the entity taken from the
    stream.  [rankIncoming_loop_run] below shows that the loop computes
    exactly the fold of [step] over the pending entities. *)

Definition buffer_step (k : nat) (buf : list Player) (p : Player) : list Player :=
  if length buf <? k then
    let buf' := buf ++ [p] in
    if length buf' =? k then make_heap level_gt buf' else buf'
  else
    match buf with
    | f :: _ =>
        if (level_ f <? level_ p)%N then sift_down level_gt (<[0 := p]> buf) 0
        else buf
    | [] => buf
    end.

Definition step (k : nat) (st : list Player * gmap nat N * nat) (p : Player)
    : list Player * gmap nat N * nat :=
  let '(buf, cuts, n) := st in
  let buf' := buffer_step k buf p in
  let n' := S n in
  let cuts' :=
    if n' mod k =? 0 then
      match buf' with
      | f :: _ => <[n' := level_ f]> cuts
      | [] => cuts
      end
    else cuts in
  (buf', cuts', n').

(** The buffer after the entities [l] have gone through it, and its front
    level: the admission bar. *)
Definition buffer_after (k : nat) (l : list Player) : list Player :=
  foldl (buffer_step k) [] l.

Definition bar (k : nat) (l : list Player) : option N :=
  level_ <$> head (buffer_after k l).

(** ** Rearranging a range of a vector

    [v'] is [v] with the entries at the indices [low..high] rearranged among
    themselves. *)
Definition rearranged_within (low high : nat) (v v' : list Player) : Prop :=
  v' ≡ₚ v ∧
  (∀ j, j < low ∨ high < j → v' !! j = v !! j) ∧
  (∀ j, low ≤ j ≤ high → ∃ j', low ≤ j' ≤ high ∧ v' !! j = v !! j').

(** Every entry before index [p] has a level at least that of every entry
    from [p] on. *)
Definition descending_split (v : list Player) (p : nat) : Prop :=
  ∀ a b x y, a < p ≤ b → v !! a = Some x → v !! b = Some y →
             (level_ y ≤ level_ x)%N.

(** What [rankIncoming] returns, in terms of the buffer and the bar. *)
Definition outcome_spec (s : VectorPlayerStream.t) (k : nat)
    (r : RankingResult) (s' : VectorPlayerStream.t) : Prop :=
  VectorPlayerStream.remaining s' = 0%Z ∧
  top_ r = std_sort level_lt (buffer_after k (VectorPlayerStream.pending s)) ∧
  ∀ c v, cutoffs_ r !! c = Some v ↔
    0 < c ≤ length (VectorPlayerStream.pending s) ∧
    (c mod k = 0 ∨ c = length (VectorPlayerStream.pending s)) ∧
    bar k (take c (VectorPlayerStream.pending s)) = Some v.

(** ** Draining a stream by hand

    [n] successive calls of [nextPlayer], as a caller of the stream makes
    them: the entities handed out, in order, and the stream after the last
    call. *)
Fixpoint nextPlayers (n : nat) (s : VectorPlayerStream.t)
    : result (list Player * VectorPlayerStream.t) :=
  match n with
  | 0 => Ok ([], s)
  | S n' =>
      '(p, s) ← VectorPlayerStream.nextPlayer s;
      '(ps, s) ← nextPlayers n' s;
      Ok (p :: ps, s)
  end.

(** * Properties *)

(** ** The result monad *)

Lemma bind_Ok {A B} (a : A) (f : A → result B) : Ok a ≫= f = f a.
Proof. done. Qed.

(** ** The player stream *)

Import VectorPlayerStream (players_, currentIndex_).

Lemma remaining_wf s :
  VectorPlayerStream.wf s →
  VectorPlayerStream.remaining s
  = (Z.of_nat (length (players_ s)) - Z.of_nat (currentIndex_ s))%Z.
Proof.
  intros [Hle Hlt]. unfold VectorPlayerStream.remaining, size_t_of_Z.
  apply Z.mod_small. lia.
Qed.

Lemma remaining_pending s :
  VectorPlayerStream.wf s →
  VectorPlayerStream.remaining s = Z.of_nat (length (VectorPlayerStream.pending s)).
Proof.
  intros Hwf. rewrite remaining_wf by done. destruct Hwf as [Hle _].
  unfold VectorPlayerStream.pending. rewrite length_drop. lia.
Qed.

Lemma wf_new players :
  (Z.of_nat (length players) < 2 ^ 64)%Z →
  VectorPlayerStream.wf (VectorPlayerStream.new players).
Proof. intros ?. split; simpl; [lia | done]. Qed.

Lemma nextPlayer_Ok s :
  VectorPlayerStream.wf s →
  VectorPlayerStream.remaining s ≠ 0%Z →
  ∃ p, players_ s !! currentIndex_ s = Some p ∧
       VectorPlayerStream.nextPlayer s
       = Ok (p, VectorPlayerStream.mk (players_ s) (S (currentIndex_ s))) ∧
       VectorPlayerStream.wf (VectorPlayerStream.mk (players_ s) (S (currentIndex_ s))) ∧
       VectorPlayerStream.pending s
       = p :: VectorPlayerStream.pending
                (VectorPlayerStream.mk (players_ s) (S (currentIndex_ s))).
Proof.
  intros Hwf Hrem. rewrite remaining_wf in Hrem by done.
  destruct Hwf as [Hle Hlt].
  assert (Hidx : currentIndex_ s < length (players_ s)) by lia.
  destruct (lookup_lt_is_Some_2 _ _ Hidx) as [p Hp].
  exists p. unfold VectorPlayerStream.nextPlayer, VectorPlayerStream.pending,
    VectorPlayerStream.wf. simpl.
  rewrite Hp. destruct (Nat.leb_spec (length (players_ s)) (currentIndex_ s)); [lia|].
  repeat split; [lia | done |].
  by rewrite (drop_S _ _ _ Hp).
Qed.

(** C9.  On every stream state (cursor within the vector), [nextPlayer] throws
    exactly when [remaining() == 0]; otherwise it returns the entity under the
    cursor and moves the cursor on, so that [remaining()] drops by one. *)
Theorem nextPlayer_exhausted_iff_remaining_zero (s : VectorPlayerStream.t) :
  VectorPlayerStream.wf s →
  (VectorPlayerStream.nextPlayer s = Err Exhausted
   ↔ VectorPlayerStream.remaining s = 0%Z) ∧
  (VectorPlayerStream.remaining s ≠ 0%Z →
   ∃ p s', VectorPlayerStream.nextPlayer s = Ok (p, s') ∧
           players_ s !! currentIndex_ s = Some p ∧
           players_ s' = players_ s ∧
           currentIndex_ s' = S (currentIndex_ s) ∧
           VectorPlayerStream.remaining s'
           = (VectorPlayerStream.remaining s - 1)%Z).
Proof.
  intros Hwf. split.
  - rewrite remaining_wf by done. destruct Hwf as [Hle Hlt].
    unfold VectorPlayerStream.nextPlayer.
    destruct (Nat.leb_spec (length (players_ s)) (currentIndex_ s)) as [Hge|Hidx].
    + split; [lia | done].
    + destruct (lookup_lt_is_Some_2 _ _ Hidx) as [p ->].
      split; [done | lia].
  - intros Hrem.
    destruct (nextPlayer_Ok s Hwf Hrem) as (p & Hp & Hnext & Hwf' & _).
    eexists p, _. split; [exact Hnext|].
    repeat split; [done|].
    rewrite !remaining_wf by done. simpl. lia.
Qed.

Lemma nextPlayer_exhausted_iff_remaining_zero_witness :
  VectorPlayerStream.wf (VectorPlayerStream.new [player 5; player 1]) ∧
  ∃ p s', VectorPlayerStream.nextPlayer (VectorPlayerStream.new [player 5; player 1])
          = Ok (p, s') ∧ p = player 5 ∧ VectorPlayerStream.remaining s' = 1%Z.
Proof.
  assert (Hwf : VectorPlayerStream.wf (VectorPlayerStream.new [player 5; player 1])).
  { apply wf_new. simpl. lia. }
  split; [exact Hwf|].
  destruct (nextPlayer_exhausted_iff_remaining_zero _ Hwf) as [_ Hstep].
  destruct Hstep as (p & s' & Hnext & Hp & _ & _ & Hrem).
  { vm_compute. discriminate. }
  exists p, s'. repeat split; [exact Hnext | | exact Hrem].
  simpl in Hp. congruence.
Defined.

(** ** Swapping two entries of a vector *)

Section Swap.

Lemma insert_perm_cons (v : list Player) j a b :
  v !! j = Some b → b :: <[j := a]> v ≡ₚ a :: v.
Proof.
  intros Hj. rewrite insert_take_drop by eauto using lookup_lt_Some.
  rewrite <- (take_drop_middle v j b Hj) at 3.
  rewrite <- !Permutation_middle. apply Permutation_swap.
Qed.

Lemma insert_insert_perm (v : list Player) i j a b :
  v !! i = Some a → v !! j = Some b → <[i := b]> (<[j := a]> v) ≡ₚ v.
Proof.
  revert i j. induction v as [|x v IH]; intros [|i] [|j] Hi Hj;
    simplify_eq/=; try done.
  - by apply insert_perm_cons.
  - symmetry. rewrite <- insert_perm_cons by done. done.
  - by rewrite IH.
Qed.

Lemma swap_perm v i j : swap v i j ≡ₚ v.
Proof.
  unfold swap. destruct (v !! i) as [a|] eqn:Hi; [|done].
  destruct (v !! j) as [b|] eqn:Hj; [|done].
  by apply insert_insert_perm.
Qed.

Lemma swap_length v i j : length (swap v i j) = length v.
Proof. apply Permutation_length, swap_perm. Qed.

Lemma swap_lookup v i j a b k :
  v !! i = Some a → v !! j = Some b →
  swap v i j !! k
  = if decide (k = i) then Some b else if decide (k = j) then Some a else v !! k.
Proof.
  intros Hi Hj. unfold swap. rewrite Hi, Hj.
  pose proof (lookup_lt_Some _ _ _ Hi). pose proof (lookup_lt_Some _ _ _ Hj).
  destruct (decide (k = i)) as [->|].
  { rewrite list_lookup_insert_eq; [done | by rewrite length_insert]. }
  rewrite list_lookup_insert_ne by done.
  destruct (decide (k = j)) as [->|].
  { by rewrite list_lookup_insert_eq. }
  by rewrite list_lookup_insert_ne.
Qed.
End Swap.

(** ** Sifting down restores the heap

    [comp] is a strict weak order: asymmetric, with a transitive complement. *)

Section Heap.
Context (comp : Player → Player → bool).
Hypothesis comp_asym : ∀ a b, comp a b = true → comp b a = false.
Hypothesis comp_negtrans :
  ∀ a b c, comp a b = false → comp b c = false → comp a c = false.

Lemma comp_irrefl a : comp a a = false.
Proof.
  destruct (comp a a) eqn:E; [|done].
  pose proof (comp_asym _ _ E). congruence.
Qed.

Lemma sift_down_loop_perm fuel v cur : sift_down_loop comp fuel v cur ≡ₚ v.
Proof.
  revert v cur. induction fuel as [|fuel IH]; intros v cur; cbn [sift_down_loop]; [done|].
  destruct (_ =? _); [done|]. by rewrite IH, swap_perm.
Qed.

Lemma sift_down_perm v cur : sift_down comp v cur ≡ₚ v.
Proof. apply sift_down_loop_perm. Qed.

Lemma sift_down_length v cur : length (sift_down comp v cur) = length v.
Proof. apply Permutation_length, sift_down_perm. Qed.

(** One round of the loop: either the node is in place, or a child is
    strictly above it and not below its sibling. *)
Lemma sift_best_spec v cur :
  (sift_best comp v cur = cur ∧ heap_at comp v cur) ∨
  (∃ x y, (sift_best comp v cur = 2 * cur + 1 ∨ sift_best comp v cur = 2 * cur + 2) ∧
          v !! cur = Some x ∧ v !! sift_best comp v cur = Some y ∧
          comp x y = true ∧
          ∀ c z, c = 2 * cur + 1 ∨ c = 2 * cur + 2 →
                 v !! c = Some z → comp y z = false).
Proof.
  unfold sift_best, below, heap_at.
  destruct (v !! cur) as [x|] eqn:Hx.
  2:{ left. rewrite Hx. split; [done|]. intros; simplify_eq. }
  destruct (v !! (2 * cur + 1)) as [yl|] eqn:Hl.
  2:{ rewrite Hx. destruct (v !! (2 * cur + 2)) as [yr|] eqn:Hr.
      - apply lookup_lt_Some in Hr. apply lookup_ge_None in Hl. lia.
      - left. split; [done|]. intros c a b [->| ->] ? ?; simplify_eq. }
  destruct (comp x yl) eqn:Hxl.
  - rewrite Hl. destruct (v !! (2 * cur + 2)) as [yr|] eqn:Hr.
    + destruct (comp yl yr) eqn:Hlr.
      * right. exists x, yr. rewrite Hr. split_and!; try done.
        { by right. }
        { destruct (comp x yr) eqn:E; [done|].
          pose proof (comp_asym _ _ Hlr) as E'.
          pose proof (comp_negtrans _ _ _ E E'). congruence. }
        intros c z [->| ->] Hz; simplify_eq; [by apply comp_asym | apply comp_irrefl].
      * right. exists x, yl. rewrite Hl. split_and!; try done.
        { by left. }
        intros c z [->| ->] Hz; simplify_eq; [apply comp_irrefl | done].
    + right. exists x, yl. rewrite Hl. split_and!; try done.
      { by left. }
      intros c z [->| ->] Hz; simplify_eq. apply comp_irrefl.
  - rewrite Hx. destruct (v !! (2 * cur + 2)) as [yr|] eqn:Hr.
    + destruct (comp x yr) eqn:Hxr.
      * right. exists x, yr. rewrite Hr. split_and!; try done.
        { by right. }
        intros c z [->| ->] Hz; simplify_eq; [|apply comp_irrefl].
        match goal with |- comp ?a ?b = false => destruct (comp a b) eqn:E end; [|done].
        pose proof (comp_asym _ _ E) as E'.
        pose proof (comp_negtrans _ _ _ Hxl E'). congruence.
      * left. split; [done|]. intros c a b [->| ->] ? ?; simplify_eq; done.
    + left. split; [done|]. intros c a b [->| ->] ? ?; simplify_eq; done.
Qed.

(** The loop invariant: every node from [lo] on but [cur] is in place, and
    the parent of [cur] is not below the children of [cur]. *)
Lemma sift_down_loop_heap fuel : ∀ v cur lo,
  length v ≤ cur + fuel → lo ≤ cur →
  (∀ i, lo ≤ i → i ≠ cur → heap_at comp v i) →
  (∀ p c x z, lo ≤ p → cur = 2 * p + 1 ∨ cur = 2 * p + 2 →
              c = 2 * cur + 1 ∨ c = 2 * cur + 2 →
              v !! p = Some x → v !! c = Some z → comp x z = false) →
  heap_from comp (sift_down_loop comp fuel v cur) lo.
Proof.
  induction fuel as [|fuel IH]; intros v cur lo Hlen Hlo Hothers Hgrand.
  - cbn. intros i Hi. destruct (decide (i = cur)) as [->|]; [|by apply Hothers].
    intros c x y _ Hx. apply lookup_lt_Some in Hx. lia.
  - cbn [sift_down_loop].
    destruct (sift_best_spec v cur)
      as [[Hb Hheap] | (x & y & Hb & Hx & Hy & Hxy & Hch)].
    { rewrite Hb, Nat.eqb_refl. intros i Hi.
      destruct (decide (i = cur)) as [->|]; auto. }
    set (best := sift_best comp v cur) in *.
    destruct (Nat.eqb_spec best cur) as [|Hne]; [lia|].
    apply IH.
    + rewrite swap_length. lia.
    + lia.
    + intros i Hi Hib c a b Hc Ha Hb'.
      rewrite (swap_lookup _ _ _ _ _ _ Hx Hy) in Ha.
      rewrite (swap_lookup _ _ _ _ _ _ Hx Hy) in Hb'.
      destruct (decide (i = cur)) as [->|Hicur].
      * simplify_eq. destruct (decide (c = cur)); [lia|].
        destruct (decide (c = best)); simplify_eq; [by apply comp_asym|].
        by apply (Hch c).
      * destruct (decide (i = best)); [done|].
        destruct (decide (c = cur)) as [->|].
        { simplify_eq. by apply (Hgrand i best). }
        destruct (decide (c = best)); [lia|].
        by apply (Hothers i Hi Hicur c).
    + intros p c a z Hp Hpar Hc Ha Hz.
      assert (p = cur) as -> by lia.
      rewrite (swap_lookup _ _ _ _ _ _ Hx Hy) in Ha.
      rewrite (swap_lookup _ _ _ _ _ _ Hx Hy) in Hz.
      rewrite decide_True in Ha by done. simplify_eq.
      destruct (decide (c = cur)); [lia|].
      destruct (decide (c = best)); [lia|].
      apply (Hothers best ltac:(lia) Hne c); done.
Qed.

Lemma sift_down_heap v cur :
  heap_from comp v (S cur) → heap_from comp (sift_down comp v cur) cur.
Proof.
  intros Hheap. apply sift_down_loop_heap; [lia | done | |].
  - intros i Hi Hne. apply Hheap. lia.
  - intros; lia.
Qed.

(** The root of a heap is below no entry. *)
Lemma heap_root v r i x :
  is_heap comp v → v !! 0 = Some r → v !! i = Some x → comp r x = false.
Proof.
  intros Hheap Hr. revert x.
  induction (lt_wf i) as [i _ IH]. intros x Hx.
  destruct i as [|i].
  { simplify_eq. apply comp_irrefl. }
  assert (∃ p, S i = 2 * p + 1 ∨ S i = 2 * p + 2) as [p Hp].
  { exists (i / 2). pose proof (Nat.div_mod_eq i 2).
    pose proof (Nat.mod_upper_bound i 2). lia. }
  assert (p < length v) as Hlt.
  { apply lookup_lt_Some in Hx. lia. }
  destruct (lookup_lt_is_Some_2 _ _ Hlt) as [z Hz].
  apply (comp_negtrans _ z).
  - apply (IH p); [lia | done].
  - apply (Hheap p ltac:(lia) (S i)); done.
Qed.

Lemma heap_root_elem v r x :
  is_heap comp v → v !! 0 = Some r → x ∈ v → comp r x = false.
Proof.
  intros Hheap Hr [i Hi]%list_elem_of_lookup. by apply (heap_root v r i).
Qed.

Lemma heap_from_half v : heap_from comp v (length v / 2).
Proof.
  intros i Hi c x y Hc _ Hy. apply lookup_lt_Some in Hy.
  pose proof (Nat.div_mod_eq (length v) 2).
  pose proof (Nat.mod_upper_bound (length v) 2). lia.
Qed.

Lemma make_heap_loop m : ∀ v,
  heap_from comp v m →
  is_heap comp (foldl (sift_down comp) v (reverse (seq 0 m))).
Proof.
  induction m as [|m IH]; intros v Hheap; [done|].
  rewrite seq_S, reverse_snoc. cbn [foldl plus].
  apply IH. by apply sift_down_heap.
Qed.

Lemma make_heap_is_heap v : is_heap comp (make_heap comp v).
Proof. apply make_heap_loop, heap_from_half. Qed.

Lemma make_heap_perm v : make_heap comp v ≡ₚ v.
Proof.
  unfold make_heap. generalize (reverse (seq 0 (length v / 2))) as idx.
  intros idx. revert v. induction idx as [|i idx IH]; intros v; [done|].
  cbn [foldl]. by rewrite IH, sift_down_perm.
Qed.

Lemma make_heap_length v : length (make_heap comp v) = length v.
Proof. apply Permutation_length, make_heap_perm. Qed.

(** [pop_heap] on a heap [h] followed by a tail [t]: the root moves to the
    front of the tail, and the rest is a heap again. *)
Lemma pop_heap_spec (h t : list Player) :
  h ≠ [] → is_heap comp h →
  ∃ r h', pop_heap comp (h ++ t) (length h) = h' ++ r :: t ∧
          h !! 0 = Some r ∧ is_heap comp h' ∧ r :: h' ≡ₚ h.
Proof.
  intros Hne Hheap. unfold pop_heap.
  rewrite take_app_length, drop_app_length.
  destruct h as [|r h0]; [done|]. clear Hne.
  destruct h0 as [|x h0 _] using rev_ind.
  { exists r, []. by split_and!. }
  assert (last (r :: h0 ++ [x]) = Some x) as ->.
  { by rewrite app_comm_cons, last_snoc. }
  assert (take (length (r :: h0 ++ [x]) - 1) (r :: h0 ++ [x]) = r :: h0) as ->.
  { rewrite app_comm_cons. apply take_app_length'.
    rewrite length_app. simpl. lia. }
  exists r, (sift_down comp (x :: h0) 0). split_and!; [done | done | |].
  - apply sift_down_heap. intros i Hi c a b Hc Ha Hb.
    apply (Hheap i ltac:(lia) c); [done | |].
    + destruct i; [lia|]. simpl in *. by apply lookup_app_l_Some.
    + destruct c; [lia|]. simpl in *. by apply lookup_app_l_Some.
  - rewrite sift_down_perm.
    by rewrite (Permutation_app_comm h0 [x]).
Qed.
End Heap.

(** ** The two orders the selectors use *)

Lemma player_lt_asym a b : player_lt a b = true → player_lt b a = false.
Proof. unfold player_lt. rewrite N.ltb_lt, N.ltb_ge. lia. Qed.

Lemma player_lt_negtrans a b c :
  player_lt a b = false → player_lt b c = false → player_lt a c = false.
Proof. unfold player_lt. rewrite !N.ltb_ge. lia. Qed.

Lemma level_gt_asym a b : level_gt a b = true → level_gt b a = false.
Proof. unfold level_gt. rewrite N.ltb_lt, N.ltb_ge. lia. Qed.

Lemma level_gt_negtrans a b c :
  level_gt a b = false → level_gt b c = false → level_gt a c = false.
Proof. unfold level_gt. rewrite !N.ltb_ge. lia. Qed.

(** In a max-heap the root has the greatest level, in a min-heap the least. *)
Lemma max_heap_root v r x :
  is_heap player_lt v → v !! 0 = Some r → x ∈ v → (level_ x ≤ level_ r)%N.
Proof.
  intros Hheap Hr Hx.
  pose proof (heap_root_elem _ player_lt_asym player_lt_negtrans v r x Hheap Hr Hx) as H.
  unfold player_lt in H. by apply N.ltb_ge in H.
Qed.

Lemma min_heap_root v r x :
  is_heap level_gt v → v !! 0 = Some r → x ∈ v → (level_ r ≤ level_ x)%N.
Proof.
  intros Hheap Hr Hx.
  pose proof (heap_root_elem _ level_gt_asym level_gt_negtrans v r x Hheap Hr Hx) as H.
  unfold level_gt in H. by apply N.ltb_ge in H.
Qed.

(** ** Sorting and the greatest levels *)

#[local] Instance N_le_total : Total N.le.
Proof. intros a b. lia. Qed.

Lemma std_sort_perm comp v : std_sort comp v ≡ₚ v.
Proof. apply merge_sort_Permutation. Qed.

Lemma std_sort_length comp v : length (std_sort comp v) = length v.
Proof. apply Permutation_length, std_sort_perm. Qed.

Lemma std_sort_player_lt_ascending v : ascending (std_sort player_lt v).
Proof.
  unfold ascending, levels, std_sort.
  apply (Sorted_fmap _ (not_after player_lt)).
  - intros a b. unfold not_after, player_lt. by rewrite N.ltb_ge.
  - apply Sorted_merge_sort. intros a b. unfold not_after, player_lt.
    rewrite !N.ltb_ge. lia.
Qed.

Lemma std_sort_level_lt_ascending v : ascending (std_sort level_lt v).
Proof. apply std_sort_player_lt_ascending. Qed.

(** A sorted tail that dominates the rest of the vector holds the greatest
    levels. *)
Lemma top_levels_split v h t :
  v ≡ₚ h ++ t →
  (∀ x y, x ∈ h → y ∈ t → (level_ x ≤ level_ y)%N) →
  ascending t →
  levels t = top_levels (length t) v.
Proof.
  intros Hperm Hdom Hasc. unfold top_levels.
  assert (merge_sort N.le (levels v) = merge_sort N.le (levels h) ++ levels t) as ->.
  { apply (Sorted_unique N.le).
    - apply Sorted_merge_sort, _.
    - apply StronglySorted_Sorted, StronglySorted_app_2.
      + intros a b Ha Hb. rewrite merge_sort_Permutation in Ha.
        unfold levels in Ha, Hb.
        apply list_elem_of_fmap in Ha as (x & -> & Hx).
        apply list_elem_of_fmap in Hb as (y & -> & Hy). by apply Hdom.
      + apply Sorted_StronglySorted; [apply _|]. apply Sorted_merge_sort, _.
      + apply Sorted_StronglySorted; [apply _|]. done.
    - rewrite !merge_sort_Permutation. unfold levels.
      by rewrite Hperm, fmap_app. }
  symmetry. apply drop_app_length'.
  rewrite (Permutation_length (merge_sort_Permutation _ _)).
  unfold levels. rewrite length_fmap.
  apply Permutation_length in Hperm. rewrite length_app in Hperm. lia.
Qed.

Lemma top_levels_min k v : top_levels k v = top_levels (k `min` length v) v.
Proof. unfold top_levels. f_equal. lia. Qed.

(** Dually, a sorted tail that the rest of the vector dominates holds the
    least levels. *)
Lemma bottom_levels_split v h t :
  v ≡ₚ h ++ t →
  (∀ x y, x ∈ h → y ∈ t → (level_ y ≤ level_ x)%N) →
  ascending t →
  levels t = bottom_levels (length t) v.
Proof.
  intros Hperm Hdom Hasc. unfold bottom_levels.
  assert (merge_sort N.le (levels v) = levels t ++ merge_sort N.le (levels h)) as ->.
  { apply (Sorted_unique N.le).
    - apply Sorted_merge_sort, _.
    - apply StronglySorted_Sorted, StronglySorted_app_2.
      + intros a b Ha Hb. rewrite merge_sort_Permutation in Hb.
        unfold levels in Ha, Hb.
        apply list_elem_of_fmap in Ha as (y & -> & Hy).
        apply list_elem_of_fmap in Hb as (x & -> & Hx). by apply Hdom.
      + apply Sorted_StronglySorted; [apply _|]. done.
      + apply Sorted_StronglySorted; [apply _|]. apply Sorted_merge_sort, _.
    - rewrite !merge_sort_Permutation. unfold levels.
      by rewrite Hperm, fmap_app, Permutation_app_comm. }
  symmetry. apply take_app_length'. unfold levels. by rewrite length_fmap.
Qed.

(** ** The offline heap selector *)

Lemma ascending_cons r t :
  (∀ y, y ∈ t → (level_ r ≤ level_ y)%N) → ascending t → ascending (r :: t).
Proof.
  intros Hr Ht. unfold ascending, levels in *. csimpl. constructor; [done|].
  destruct t as [|y t]; csimpl; constructor. apply Hr. by left.
Qed.

(** [k] more pops on a heap [h] in front of a sorted tail [t] that dominates
    it: the tail grows by the [k] greatest entries of [h], in ascending order. *)
Lemma heapRank_pops k : ∀ j h t,
  k ≤ length h → length t = j →
  is_heap player_lt h → ascending t →
  (∀ x y, x ∈ h → y ∈ t → (level_ x ≤ level_ y)%N) →
  ∃ h' t',
    foldl (λ v i, pop_heap player_lt v (length v - i)) (h ++ t) (seq j k) = h' ++ t' ∧
    length t' = j + k ∧ ascending t' ∧
    (∀ x y, x ∈ h' → y ∈ t' → (level_ x ≤ level_ y)%N) ∧
    h' ++ t' ≡ₚ h ++ t.
Proof.
  induction k as [|k IH]; intros j h t Hk Hj Hheap Hasc Hdom.
  { exists h, t. split_and!; [done | lia | done..]. }
  cbn [seq foldl].
  assert (length (h ++ t) - j = length h) as -> by (rewrite length_app; lia).
  destruct (pop_heap_spec _ player_lt_asym player_lt_negtrans h t)
    as (r & h1 & -> & Hr & Hheap1 & Hperm);
    [intros ->; simpl in Hk; lia | done |].
  assert (Hin : ∀ x, x ∈ h1 → x ∈ h).
  { intros x Hx. rewrite <- Hperm. by right. }
  destruct (IH (S j) h1 (r :: t)) as (h' & t' & Hrun & Hlen & Hasc' & Hdom' & Hperm').
  - apply Permutation_length in Hperm. simpl in Hperm. lia.
  - simpl. lia.
  - done.
  - apply ascending_cons; [|done]. intros y Hy. apply Hdom; [|done].
    rewrite <- Hperm. by left.
  - intros x y Hx [->|Hy]%elem_of_cons.
    + by apply (max_heap_root h); auto.
    + by apply Hdom; auto.
  - exists h', t'. split_and!; [done | lia | done | done |].
    rewrite Hperm', <- Hperm. by rewrite <- Permutation_middle.
Qed.

Lemma heapRank_spec players :
  ∃ h t, (Offline.heapRank players).2 = h ++ t ∧
         top_ (Offline.heapRank players).1 = t ∧
         cutoffs_ (Offline.heapRank players).1 = ∅ ∧
         length t = length players / 10 ∧
         ascending t ∧
         (∀ x y, x ∈ h → y ∈ t → (level_ x ≤ level_ y)%N) ∧
         h ++ t ≡ₚ players.
Proof.
  unfold Offline.heapRank, Offline.tenPer. cbn [fst snd top_ cutoffs_].
  pose proof (make_heap_is_heap _ player_lt_asym player_lt_negtrans players) as Hheap.
  pose proof (make_heap_perm player_lt players) as Hperm.
  set (hp := make_heap player_lt players) in *.
  destruct (heapRank_pops (length players / 10) 0 hp [])
    as (h & t & Hrun & Hlen & Hasc & Hdom & Hperm').
  - rewrite (Permutation_length Hperm).
    pose proof (Nat.div_mod_eq (length players) 10). lia.
  - done.
  - done.
  - constructor.
  - intros x y _ Hy. by apply elem_of_nil in Hy.
  - rewrite app_nil_r in Hrun, Hperm'. rewrite Hrun.
    exists h, t. split_and!; [done | | done | lia | done | done | by rewrite Hperm'].
    apply drop_app_length'. rewrite length_app. lia.
Qed.

(** C5.  [heapRank] returns [floor(N/10)] entities whose levels are the
    greatest levels of the input, counted as a multiset, and no checkpoints;
    below ten entities the top is empty. *)
Theorem heapRank_top_is_greatest_tenth (players : list Player) :
  length (top_ (Offline.heapRank players).1) = length players / 10 ∧
  levels (top_ (Offline.heapRank players).1)
  = top_levels (length players / 10) players ∧
  cutoffs_ (Offline.heapRank players).1 = ∅ ∧
  (length players < 10 → top_ (Offline.heapRank players).1 = []).
Proof.
  destruct (heapRank_spec players) as (h & t & _ & -> & -> & Hlen & Hasc & Hdom & Hperm).
  split_and!; [done | | done |].
  - rewrite <- Hlen. by apply (top_levels_split players h t).
  - intros Hsmall. apply nil_length_inv. rewrite Hlen.
    by apply Nat.div_small.
Qed.

Lemma heapRank_top_is_greatest_tenth_witness :
  length (player <$> [3; 1; 4; 1; 5; 9; 2; 6]%N) < 10 ∧
  top_ (Offline.heapRank (player <$> [3; 1; 4; 1; 5; 9; 2; 6]%N)).1 = [] ∧
  levels (top_ (Offline.heapRank (player <$> [1; 2; 3; 4; 5; 6; 7; 8; 9; 10]%N)).1)
  = [10%N].
Proof.
  split; [simpl; lia|]. split.
  - apply (heapRank_top_is_greatest_tenth (player <$> [3; 1; 4; 1; 5; 9; 2; 6]%N)).
    simpl. lia.
  - destruct (heapRank_top_is_greatest_tenth
                (player <$> [1; 2; 3; 4; 5; 6; 7; 8; 9; 10]%N)) as (_ & Hlev & _).
    exact Hlev.
Defined.
(** ** The offline partition selector

    The partition keeps the entries with a level at least the pivot's before
    the pivot, so the slice from [cutoffIndex] to the end holds the least
    levels of the vector. *)

Lemma rearranged_refl low high v : rearranged_within low high v v.
Proof. split_and!; [done | done |]. intros j Hj. by exists j. Qed.

Lemma rearranged_trans low high v1 v2 v3 :
  rearranged_within low high v1 v2 → rearranged_within low high v2 v3 →
  rearranged_within low high v1 v3.
Proof.
  intros (Hp1 & Ho1 & Hi1) (Hp2 & Ho2 & Hi2). split_and!.
  - by rewrite Hp2.
  - intros j Hj. by rewrite Ho2, Ho1.
  - intros j Hj. destruct (Hi2 j Hj) as (j' & Hj' & ->). apply (Hi1 j' Hj').
Qed.

Lemma rearranged_swap low high v a b x y :
  low ≤ a ≤ high → low ≤ b ≤ high → v !! a = Some x → v !! b = Some y →
  rearranged_within low high v (swap v a b).
Proof.
  intros Ha Hb Hx Hy. split_and!.
  - apply swap_perm.
  - intros j Hj. rewrite (swap_lookup _ _ _ _ _ _ Hx Hy).
    rewrite !decide_False by lia. done.
  - intros j Hj. rewrite (swap_lookup _ _ _ _ _ _ Hx Hy).
    destruct (decide (j = a)); [by exists b|].
    destruct (decide (j = b)); [by exists a | by exists j].
Qed.

Lemma rearranged_length low high v v' :
  rearranged_within low high v v' → length v' = length v.
Proof. intros (Hp & _). by apply Permutation_length. Qed.

Lemma int_val_small z : (-1 ≤ z < 2 ^ 31)%Z → int_val z = Ok z.
Proof.
  intros Hz. unfold int_val, INT_MIN, INT_MAX.
  destruct (Z.leb_spec (- 2 ^ 31) z); [|lia].
  destruct (Z.leb_spec z (2 ^ 31 - 1)); [done | lia].
Qed.

Lemma vec_at_nat v j p : v !! j = Some p → vec_at v (Z.of_nat j) = Ok p.
Proof.
  intros Hp. unfold vec_at. destruct (Z.ltb_spec (Z.of_nat j) 0); [lia|].
  by rewrite Nat2Z.id, Hp.
Qed.

Lemma vec_swap_nat v a b x y :
  v !! a = Some x → v !! b = Some y →
  vec_swap v (Z.of_nat a) (Z.of_nat b) = Ok (swap v a b).
Proof.
  intros Hx Hy. unfold vec_swap, swap.
  rewrite (vec_at_nat _ _ _ Hx), (vec_at_nat _ _ _ Hy), !bind_Ok, !Nat2Z.id.
  by rewrite Hx, Hy.
Qed.

Lemma partition_loop_spec pivot low high fuel : ∀ v i1 it,
  (Z.of_nat high < 2 ^ 31)%Z →
  low ≤ i1 → i1 ≤ it → it ≤ high → high < length v → high - it ≤ fuel →
  v !! high = Some pivot →
  (∀ j x, low ≤ j < i1 → v !! j = Some x → (level_ pivot ≤ level_ x)%N) →
  (∀ j x, i1 ≤ j < it → v !! j = Some x → (level_ x < level_ pivot)%N) →
  ∃ v' i1',
    Offline.partition_loop fuel v pivot (Z.of_nat high) (Z.of_nat i1 - 1) (Z.of_nat it)
    = Ok (v', (Z.of_nat i1' - 1)%Z) ∧
    low ≤ i1' ≤ high ∧ v' !! high = Some pivot ∧
    (∀ j x, low ≤ j < i1' → v' !! j = Some x → (level_ pivot ≤ level_ x)%N) ∧
    (∀ j x, i1' ≤ j < high → v' !! j = Some x → (level_ x < level_ pivot)%N) ∧
    rearranged_within low high v v'.
Proof.
  induction fuel as [|fuel IH];
    intros v i1 it Hint Hlow Hi1 Hit Hhigh Hfuel Hpivot HA HB;
    cbn [Offline.partition_loop];
    rewrite (int_val_small (Z.of_nat high - 1)), bind_Ok by lia;
    destruct (Z.leb_spec (Z.of_nat it) (Z.of_nat high - 1)) as [Hlt|Hdone].
  - lia.
  - assert (it = high) as -> by lia.
    exists v, i1. split_and!; [done | lia | lia | done | done | done | apply rearranged_refl].
  - destruct (lookup_lt_is_Some_2 v it ltac:(lia)) as [p Hp].
    rewrite (vec_at_nat _ _ _ Hp), bind_Ok.
    destruct (N.leb_spec (level_ pivot) (level_ p)) as [Hge|Hless].
    + destruct (lookup_lt_is_Some_2 v i1 ltac:(lia)) as [q Hq].
      rewrite (int_val_small (Z.of_nat i1 - 1 + 1)), bind_Ok by lia.
      replace (Z.of_nat i1 - 1 + 1)%Z with (Z.of_nat i1) by lia.
      rewrite (vec_swap_nat _ _ _ _ _ Hq Hp), bind_Ok.
      rewrite (int_val_small (Z.of_nat it + 1)), bind_Ok by lia.
      replace (Z.of_nat i1) with (Z.of_nat (S i1) - 1)%Z by lia.
      replace (Z.of_nat it + 1)%Z with (Z.of_nat (S it)) by lia.
      destruct (IH (swap v i1 it) (S i1) (S it))
        as (v' & i1' & Hrun & Hi1' & Hpivot' & HA' & HB' & Hre);
        [done | lia | lia | lia | by rewrite swap_length | lia | | | |].
      * rewrite (swap_lookup _ _ _ _ _ _ Hq Hp). by rewrite !decide_False by lia.
      * intros j x Hj. rewrite (swap_lookup _ _ _ _ _ _ Hq Hp).
        destruct (decide (j = i1)) as [->|]; [by intros [= <-]|].
        rewrite decide_False by lia. apply HA. lia.
      * intros j x Hj. rewrite (swap_lookup _ _ _ _ _ _ Hq Hp).
        rewrite decide_False by lia.
        destruct (decide (j = it)) as [->|].
        { intros [= <-]. apply (HB i1); [lia | done]. }
        apply HB. lia.
      * exists v', i1'. split_and!; [done | lia | lia | done | done | done |].
        eapply rearranged_trans; [|exact Hre].
        apply (rearranged_swap _ _ _ _ _ q p); [lia | lia | done | done].
    + rewrite (int_val_small (Z.of_nat it + 1)), bind_Ok by lia.
      replace (Z.of_nat it + 1)%Z with (Z.of_nat (S it)) by lia.
      destruct (IH v i1 (S it))
        as (v' & i1' & Hrun & Hi1' & Hpivot' & HA' & HB' & Hre);
        [done | lia | lia | lia | done | lia | done | done | |].
      * intros j x Hj Hx. destruct (decide (j = it)) as [->|].
        { by simplify_eq. }
        apply (HB j); [lia | done].
      * exists v', i1'. split_and!; [done | lia | lia | done | done | done | done].
  - assert (it = high) as -> by lia.
    exists v, i1. split_and!; [done | lia | lia | done | done | done | apply rearranged_refl].
Qed.

Lemma partition_spec v low high :
  (Z.of_nat high < 2 ^ 31)%Z →
  low ≤ high → high < length v →
  ∃ v' p pv,
    Offline.partition v (Z.of_nat low) (Z.of_nat high) = Ok (v', Z.of_nat p) ∧
    low ≤ p ≤ high ∧ v' !! p = Some pv ∧
    (∀ j x, low ≤ j < p → v' !! j = Some x → (level_ pv ≤ level_ x)%N) ∧
    (∀ j x, p < j ≤ high → v' !! j = Some x → (level_ x < level_ pv)%N) ∧
    rearranged_within low high v v'.
Proof.
  intros Hint Hlow Hhigh. unfold Offline.partition.
  destruct (lookup_lt_is_Some_2 v high Hhigh) as [pivot Hpivot].
  rewrite (vec_at_nat _ _ _ Hpivot), bind_Ok.
  rewrite (int_val_small (Z.of_nat low - 1)), bind_Ok by lia.
  destruct (partition_loop_spec pivot low high
              (Z.to_nat (Z.of_nat high - Z.of_nat low)) v low low)
    as (v1 & p & -> & Hp & Hpivot1 & HA & HB & Hre);
    [done | lia | lia | lia | lia | lia | done | intros; lia | intros; lia |].
  rewrite bind_Ok.
  pose proof (rearranged_length _ _ _ _ Hre) as Hlen.
  destruct (lookup_lt_is_Some_2 v1 p ltac:(lia)) as [q Hq].
  rewrite (int_val_small (Z.of_nat p - 1 + 1)), bind_Ok by lia.
  replace (Z.of_nat p - 1 + 1)%Z with (Z.of_nat p) by lia.
  rewrite (vec_swap_nat _ _ _ _ _ Hq Hpivot1), bind_Ok.
  exists (swap v1 p high), p, pivot. split_and!; [done | lia | lia | | | |].
  - rewrite (swap_lookup _ _ _ _ _ _ Hq Hpivot1). by rewrite decide_True.
  - intros j x Hj. rewrite (swap_lookup _ _ _ _ _ _ Hq Hpivot1).
    rewrite !decide_False by lia. by apply HA.
  - intros j x Hj. rewrite (swap_lookup _ _ _ _ _ _ Hq Hpivot1).
    rewrite decide_False by lia. destruct (decide (j = high)) as [->|].
    + intros [= <-]. apply (HB p); [lia | done].
    + apply HB. lia.
  - eapply rearranged_trans; [exact Hre|].
    apply (rearranged_swap _ _ _ _ _ q pivot); [lia | lia | done | done].
Qed.

Lemma split_preserved low high v v' p :
  rearranged_within low high v v' → p ≤ low ∨ high < p →
  descending_split v p → descending_split v' p.
Proof.
  intros (_ & Hout & Hin) Hp Hsplit a b x y Hab Hx Hy.
  assert (∃ a', a' < p ∧ v !! a' = Some x) as (a' & Ha' & Hx').
  { destruct (decide (low ≤ a ≤ high)) as [Ha|Ha].
    - destruct (Hin a Ha) as (a' & Ha' & Heq). exists a'. split; [lia | congruence].
    - exists a. split; [lia|]. rewrite <- Hout by lia. done. }
  assert (∃ b', p ≤ b' ∧ v !! b' = Some y) as (b' & Hb' & Hy').
  { destruct (decide (low ≤ b ≤ high)) as [Hb|Hb].
    - destruct (Hin b Hb) as (b' & Hb' & Heq). exists b'. split; [lia | congruence].
    - exists b. split; [lia|]. rewrite <- Hout by lia. done. }
  apply (Hsplit a' b'); [lia | done | done].
Qed.

Lemma partition_splits v low high p pv :
  low ≤ p ≤ high → v !! p = Some pv →
  (∀ j x, low ≤ j < p → v !! j = Some x → (level_ pv ≤ level_ x)%N) →
  (∀ j x, p < j ≤ high → v !! j = Some x → (level_ x < level_ pv)%N) →
  descending_split v low → descending_split v (S high) →
  descending_split v p ∧ descending_split v (S p).
Proof.
  intros Hp Hpv HA HB Hlow Hhigh.
  assert (Hmid : ∀ a b x y, low ≤ a ≤ p → p ≤ b ≤ high → a < b →
                 v !! a = Some x → v !! b = Some y → (level_ y ≤ level_ x)%N).
  { intros a b x y Ha Hb Hab Hx Hy.
    assert (level_ pv ≤ level_ x)%N.
    { destruct (decide (a = p)) as [->|]; [simplify_eq; lia|]. apply (HA a); [lia | done]. }
    assert (level_ y ≤ level_ pv)%N; [|lia].
    destruct (decide (b = p)) as [->|]; [simplify_eq; lia|].
    apply N.lt_le_incl, (HB b); [lia | done]. }
  split; intros a b x y Hab Hx Hy.
  - destruct (decide (a < low)); [apply (Hlow a b); [lia | done | done]|].
    destruct (decide (high < b)); [apply (Hhigh a b); [lia | done | done]|].
    apply (Hmid a b); [lia | lia | lia | done | done].
  - destruct (decide (a < low)); [apply (Hlow a b); [lia | done | done]|].
    destruct (decide (high < b)); [apply (Hhigh a b); [lia | done | done]|].
    apply (Hmid a b); [lia | lia | lia | done | done].
Qed.

(** [quickSelect] towards a cutoff inside the range stops with the pivot at
    the cutoff: no entry from the cutoff on has a level above an entry
    before it. *)
Lemma quickSelect_loop_spec c fuel : ∀ v left right,
  (Z.of_nat (length v) < 2 ^ 31)%Z →
  left ≤ c ≤ right → right < length v → right - left + 1 ≤ fuel →
  descending_split v left → descending_split v (S right) →
  ∃ v', Offline.quickSelect_loop fuel v (Z.of_nat left) (Z.of_nat right) (Z.of_nat c)
        = Ok v' ∧
        v' ≡ₚ v ∧ descending_split v' c.
Proof.
  induction fuel as [|fuel IH]; intros v left right Hint Hc Hright Hfuel Hl Hr; [lia|].
  cbn [Offline.quickSelect_loop].
  destruct (Z.leb_spec (Z.of_nat left) (Z.of_nat right)); [|lia].
  destruct (partition_spec v left right ltac:(lia) ltac:(lia) Hright)
    as (v1 & p & pv & -> & Hp & Hpv & HA & HB & Hre).
  rewrite bind_Ok.
  pose proof (rearranged_length _ _ _ _ Hre) as Hlen.
  destruct (partition_splits v1 left right p pv Hp Hpv HA HB) as [Hsp HsSp].
  { apply (split_preserved left right v); [done | lia | done]. }
  { apply (split_preserved left right v); [done | lia | done]. }
  destruct (Z.eqb_spec (Z.of_nat p) (Z.of_nat c)) as [Heq|Hne].
  { apply Nat2Z.inj in Heq as ->. exists v1. split_and!; [done | apply Hre | done]. }
  rewrite Z.gtb_ltb. destruct (Z.ltb_spec (Z.of_nat c) (Z.of_nat p)).
  - rewrite (int_val_small (Z.of_nat p - 1)), bind_Ok by lia.
    replace (Z.of_nat p - 1)%Z with (Z.of_nat (p - 1)) by lia.
    destruct (IH v1 left (p - 1)) as (v' & -> & Hperm & Hsplit);
      [lia | lia | lia | lia | | |].
    + apply (split_preserved left right v); [done | lia | done].
    + by replace (S (p - 1)) with p by lia.
    + exists v'. split_and!; [done | | done]. rewrite Hperm. apply Hre.
  - rewrite (int_val_small (Z.of_nat p + 1)), bind_Ok by lia.
    replace (Z.of_nat p + 1)%Z with (Z.of_nat (S p)) by lia.
    destruct (IH v1 (S p) right) as (v' & -> & Hperm & Hsplit);
      [lia | lia | lia | lia | done | |].
    + apply (split_preserved left right v); [done | lia | done].
    + exists v'. split_and!; [done | | done]. rewrite Hperm. apply Hre.
Qed.

(** Whatever the cutoff, [quickSelect] on a range inside the vector returns
    a rearrangement of the vector. *)
Lemma quickSelect_loop_perm c fuel : ∀ v left (right : Z),
  (Z.of_nat (length v) < 2 ^ 31)%Z →
  (right < Z.of_nat (length v))%Z →
  (right - Z.of_nat left + 1 ≤ Z.of_nat fuel)%Z →
  ∃ v', Offline.quickSelect_loop fuel v (Z.of_nat left) right c = Ok v' ∧ v' ≡ₚ v.
Proof.
  induction fuel as [|fuel IH]; intros v left right Hint Hright Hfuel;
    cbn [Offline.quickSelect_loop];
    destruct (Z.leb_spec (Z.of_nat left) right) as [Hle|Hgt];
    [lia | by exists v | | by exists v].
  replace right with (Z.of_nat (Z.to_nat right)) in * by lia.
  destruct (partition_spec v left (Z.to_nat right) ltac:(lia) ltac:(lia) ltac:(lia))
    as (v1 & p & pv & -> & Hp & _ & _ & _ & Hre).
  rewrite bind_Ok.
  pose proof (rearranged_length _ _ _ _ Hre) as Hlen.
  destruct (Z.of_nat p =? c)%Z; [exists v1; split; [done | apply Hre]|].
  destruct (Z.of_nat p >? c)%Z.
  - rewrite (int_val_small (Z.of_nat p - 1)), bind_Ok by lia.
    destruct (IH v1 left (Z.of_nat p - 1)%Z) as (v' & -> & Hperm); [lia | lia | lia |].
    exists v'. split; [done|]. rewrite Hperm. apply Hre.
  - rewrite (int_val_small (Z.of_nat p + 1)), bind_Ok by lia.
    replace (Z.of_nat p + 1)%Z with (Z.of_nat (S p)) by lia.
    destruct (IH v1 (S p) (Z.of_nat (Z.to_nat right))) as (v' & -> & Hperm);
      [lia | lia | lia |].
    exists v'. split; [done|]. rewrite Hperm. apply Hre.
Qed.

Lemma int_of_size_minus_one n :
  (Z.of_nat n < 2 ^ 31)%Z →
  int_of_Z (size_t_of_Z (Z.of_nat n - 1)) = (Z.of_nat n - 1)%Z.
Proof.
  intros Hn. unfold int_of_Z, size_t_of_Z. destruct n as [|n].
  { vm_compute. done. }
  rewrite (Z.mod_small (Z.of_nat (S n) - 1)) by lia.
  rewrite Z.mod_small by lia. lia.
Qed.

Lemma int_of_index n :
  (Z.of_nat n < 2 ^ 31)%Z → int_of_Z (Z.of_nat n) = Z.of_nat n.
Proof.
  intros Hn. unfold int_of_Z. rewrite Z.mod_small by lia. lia.
Qed.

(** The call made by [quickSelectRank], for a vector whose size fits an
    [int]. *)
Lemma quickSelect_spec players c :
  (Z.of_nat (length players) < 2 ^ 31)%Z → c ≤ length players →
  ∃ v, Offline.quickSelect players 0
         (int_of_Z (size_t_of_Z (Z.of_nat (length players) - 1)))
         (int_of_Z (Z.of_nat c)) = Ok v ∧
       v ≡ₚ players ∧ descending_split v c.
Proof.
  intros Hn Hc. unfold Offline.quickSelect.
  rewrite int_of_size_minus_one, int_of_index by lia.
  destruct (decide (c = length players)) as [->|Hne].
  - destruct (quickSelect_loop_perm (Z.of_nat (length players)) (length players)
                players 0 (Z.of_nat (length players) - 1))
      as (v & Hrun & Hperm); [lia | lia | lia |].
    exists v. split_and!; [exact Hrun | done |].
    intros a b x y Hab _ Hy. apply lookup_lt_Some in Hy.
    rewrite (Permutation_length Hperm) in Hy. lia.
  - replace (Z.of_nat (length players) - 1)%Z
      with (Z.of_nat (length players - 1)) by lia.
    destruct (quickSelect_loop_spec c (length players) players 0 (length players - 1))
      as (v & Hrun & Hperm & Hsplit); [lia | lia | lia | lia | | |].
    + intros a b x y Hab. lia.
    + intros a b x y Hab _ Hy. apply lookup_lt_Some in Hy. lia.
    + exists v. split_and!; [exact Hrun | done | done].
Qed.

Lemma tenPer_le players : Offline.tenPer players ≤ length players.
Proof.
  unfold Offline.tenPer. pose proof (Nat.div_mod_eq (length players) 10). lia.
Qed.

(** On every vector whose size fits an [int], [quickSelectRank] returns; its
    top has [floor(N/10)] entities, and they are the entities of LEAST
    level. *)
Lemma quickSelectRank_returns_lowest_tenth players :
  (Z.of_nat (length players) < 2 ^ 31)%Z →
  ∃ r v, Offline.quickSelectRank players = Ok (r, v) ∧
         v ≡ₚ players ∧
         length (top_ r) = length players / 10 ∧
         cutoffs_ r = ∅ ∧
         levels (top_ r) = bottom_levels (length players / 10) players.
Proof.
  intros Hn. unfold Offline.quickSelectRank.
  pose proof (tenPer_le players) as Hten.
  assert (Offline.tenPer players = length players / 10) as Hdiv by done.
  remember (Offline.tenPer players) as d eqn:Hd. clear Hd.
  destruct (quickSelect_spec players (length players - d) Hn ltac:(lia))
    as (v & -> & Hperm & Hsplit).
  rewrite bind_Ok. eexists _, _. split; [reflexivity|]. cbn [top_ cutoffs_].
  pose proof (Permutation_length Hperm) as Hlen.
  set (c := length players - d) in *.
  assert (drop c (take c v ++ std_sort player_lt (drop c v))
          = std_sort player_lt (drop c v)) as ->.
  { apply drop_app_length'. rewrite length_take. lia. }
  assert (length (std_sort player_lt (drop c v)) = d) as Hlentop.
  { rewrite std_sort_length, length_drop. lia. }
  split_and!.
  - by rewrite std_sort_perm, take_drop.
  - lia.
  - done.
  - rewrite <- Hdiv, <- Hlentop.
    apply (bottom_levels_split players (take c v)).
    + by rewrite std_sort_perm, take_drop.
    + intros x y Hx Hy. rewrite std_sort_perm in Hy.
      apply list_elem_of_lookup in Hx as [a Ha].
      apply list_elem_of_lookup in Hy as [b Hb].
      apply lookup_take_Some in Ha as [Ha Hac]. rewrite lookup_drop in Hb.
      apply (Hsplit a (c + b)); [lia | done | done].
    + apply std_sort_player_lt_ascending.
Qed.

Lemma quickSelectRank_Ok players :
  (Z.of_nat (length players) < 2 ^ 31)%Z →
  is_Ok (Offline.quickSelectRank players).
Proof.
  intros Hn.
  destruct (quickSelectRank_returns_lowest_tenth players Hn) as (r & v & Hrun & _).
  by exists (r, v).
Qed.

Lemma quickSelectRank_ascending players r v :
  Offline.quickSelectRank players = Ok (r, v) → ascending (top_ r).
Proof.
  unfold Offline.quickSelectRank.
  remember (length players - Offline.tenPer players) as c eqn:Hc. clear Hc.
  destruct (Offline.quickSelect _ _ _ _) as [v1|]; [|done]. cbn.
  intros [= <- _]. cbn [top_].
  destruct (decide (c ≤ length v1)) as [Hc|Hc].
  - rewrite drop_app_length' by (rewrite length_take; lia).
    apply std_sort_player_lt_ascending.
  - rewrite (drop_ge v1 c) by lia. rewrite app_nil_r.
    rewrite drop_ge by (rewrite length_take; lia). constructor.
Qed.

(** C1.  On the ten levels 1..10 [quickSelectRank] returns the entity of
    level 1, while the greatest tenth of the input is the level 10: the
    partition moves the greater levels to the front, and the slice is taken
    from the back. *)
Theorem quickSelectRank_one_to_ten_returns_lowest :
  ∃ r v,
    Offline.quickSelectRank (player <$> [1; 2; 3; 4; 5; 6; 7; 8; 9; 10]%N) = Ok (r, v) ∧
    levels (top_ r) = [1%N] ∧
    levels v = [10; 2; 3; 4; 5; 6; 7; 8; 9; 1]%N ∧
    cutoffs_ r = ∅ ∧
    top_levels 1 (player <$> [1; 2; 3; 4; 5; 6; 7; 8; 9; 10]%N) = [10%N].
Proof. eexists _, _. split; [vm_compute; reflexivity|]. by vm_compute. Qed.

(** ** [replaceMin] is a sift-down from the root *)

Lemma iter_at_Ok v i p : v !! i = Some p → iter_at v i = Ok p.
Proof. unfold iter_at. by intros ->. Qed.

Lemma int_nat_cases n :
  int_nat n = Ok n ∨ (int_nat n = Err Overflow ∧ (2 ^ 31 ≤ Z.of_nat n)%Z).
Proof.
  unfold int_nat, INT_MAX. destruct (Z.leb_spec (Z.of_nat n) (2 ^ 31 - 1)).
  - by left.
  - right. split; [done | lia].
Qed.

(** The loop is the sift-down of the heap algorithms with the order
    [level_gt], unless an index leaves the range of [int], which takes a
    heap of 2^30 entries or more. *)
Lemma replaceMin_loop_sift fuel : ∀ v cur,
  cur < length v → length v < cur + fuel →
  Online.replaceMin_loop fuel v (length v) cur
  = Ok (sift_down_loop level_gt fuel v cur) ∨
  (Online.replaceMin_loop fuel v (length v) cur = Err Overflow ∧
   (2 ^ 30 ≤ Z.of_nat (length v))%Z).
Proof.
  induction fuel as [|fuel IH]; intros v cur Hcur Hfuel; [lia|].
  cbn [Online.replaceMin_loop sift_down_loop].
  destruct (int_nat_cases (2 * cur + 1)) as [->|[-> Hover]];
    [rewrite bind_Ok | right; split; [done | lia]].
  destruct (int_nat_cases (2 * cur + 2)) as [->|[-> Hover]];
    [rewrite bind_Ok | right; split; [done | lia]].
  assert (Hbest :
    (if 2 * cur + 1 <? length v
     then l ← iter_at v (2 * cur + 1); s ← iter_at v cur;
          Ok (if (level_ l <? level_ s)%N then 2 * cur + 1 else cur)
     else Ok cur)
    = Ok (if below level_gt v cur (2 * cur + 1) then 2 * cur + 1 else cur)).
  { unfold below. destruct (Nat.ltb_spec (2 * cur + 1) (length v)) as [Hl|Hl].
    - destruct (lookup_lt_is_Some_2 v (2 * cur + 1) Hl) as [l Hl'].
      destruct (lookup_lt_is_Some_2 v cur ltac:(lia)) as [s Hs'].
      rewrite (iter_at_Ok _ _ _ Hl'), (iter_at_Ok _ _ _ Hs'), Hl', Hs'. done.
    - rewrite (lookup_ge_None_2 v (2 * cur + 1)) by lia. by destruct (v !! cur). }
  rewrite Hbest, bind_Ok. clear Hbest.
  set (b1 := if below level_gt v cur (2 * cur + 1) then 2 * cur + 1 else cur).
  assert (Hb1 : b1 = cur ∨ b1 = 2 * cur + 1 ∧ 2 * cur + 1 < length v).
  { unfold b1, below. destruct (v !! cur); [|by left].
    destruct (v !! (2 * cur + 1)) eqn:E; [|by left].
    destruct (level_gt _ _); [right | by left].
    split; [done | by eapply lookup_lt_Some]. }
  assert (Hbest :
    (if 2 * cur + 2 <? length v
     then r ← iter_at v (2 * cur + 2); s ← iter_at v b1;
          Ok (if (level_ r <? level_ s)%N then 2 * cur + 2 else b1)
     else Ok b1)
    = Ok (sift_best level_gt v cur)).
  { unfold sift_best. fold b1. unfold below.
    destruct (Nat.ltb_spec (2 * cur + 2) (length v)) as [Hr|Hr].
    - destruct (lookup_lt_is_Some_2 v (2 * cur + 2) Hr) as [r Hr'].
      destruct (lookup_lt_is_Some_2 v b1 ltac:(lia)) as [s Hs'].
      rewrite (iter_at_Ok _ _ _ Hr'), (iter_at_Ok _ _ _ Hs'), Hr', Hs'. done.
    - rewrite (lookup_ge_None_2 v (2 * cur + 2)) by lia. by destruct (v !! b1). }
  rewrite Hbest, bind_Ok. clear Hbest.
  destruct (sift_best_spec level_gt level_gt_asym level_gt_negtrans v cur)
    as [[Hb _] | (x & y & Hb & Hx & Hy & _)].
  { left. by rewrite Hb, Nat.eqb_refl. }
  set (best := sift_best level_gt v cur) in *.
  destruct (Nat.eqb_spec best cur) as [|Hne]; [lia|].
  unfold iter_swap, swap.
  rewrite (iter_at_Ok _ _ _ Hx), (iter_at_Ok _ _ _ Hy), Hx, Hy, !bind_Ok.
  pose proof (lookup_lt_Some _ _ _ Hy).
  pose proof (IH (<[cur:=y]> (<[best:=x]> v)) best) as IH'.
  rewrite !length_insert in IH'. apply IH'; lia.
Qed.

Lemma replaceMin_sift v target :
  v ≠ [] →
  Online.replaceMin v target = Ok (sift_down level_gt (<[0 := target]> v) 0) ∨
  (Online.replaceMin v target = Err Overflow ∧ (2 ^ 30 ≤ Z.of_nat (length v))%Z).
Proof.
  intros Hne. unfold Online.replaceMin, sift_down.
  destruct v as [|f v]; [done|]. cbn [iter_at lookup list_lookup].
  rewrite bind_Ok.
  pose proof (replaceMin_loop_sift (S (length (<[0:=target]> (f :: v))))
                (<[0:=target]> (f :: v)) 0) as H.
  rewrite !length_insert in *. apply H; simpl; lia.
Qed.

(** ** The streaming loop computes the fold of [step] *)

Lemma buffer_step_length k buf p :
  length (buffer_step k buf p) = if length buf <? k then S (length buf) else length buf.
Proof.
  unfold buffer_step. destruct (length buf <? k).
  - destruct (_ =? _); rewrite ?make_heap_length, length_app; simpl; lia.
  - destruct buf as [|f buf]; [done|]. destruct (_ <? _)%N; [|done].
    by rewrite sift_down_length, length_insert.
Qed.

Lemma buffer_step_nonempty k buf p : 1 ≤ k → buffer_step k buf p ≠ [].
Proof.
  intros Hk Hnil. apply (f_equal length) in Hnil. rewrite buffer_step_length in Hnil.
  destruct (Nat.ltb_spec (length buf) k); simpl in Hnil; lia.
Qed.

(** The loop computes the fold of [step] over the pending entities and
    drains the stream, unless [replaceMin] leaves the range of [int], which
    takes a capacity of 2^30 or more. *)
Lemma rankIncoming_loop_run k fuel : ∀ st l,
  1 ≤ k →
  VectorPlayerStream.wf (Online.stream st) →
  VectorPlayerStream.pending (Online.stream st) = l →
  length l ≤ fuel →
  length (Online.top_players st) ≤ k →
  (∃ s' buf cuts n,
     Online.rankIncoming_loop fuel k st = Ok (Online.mkState s' buf cuts n) ∧
     foldl (step k)
       (Online.top_players st, Online.cutoffs st, Online.players_processed st) l
     = (buf, cuts, n) ∧
     VectorPlayerStream.remaining s' = 0%Z) ∨
  (Online.rankIncoming_loop fuel k st = Err Overflow ∧ (2 ^ 30 ≤ Z.of_nat k)%Z).
Proof.
  induction fuel as [|fuel IH]; intros [s buf cuts n] l Hk Hwf Hl Hfuel Hfull;
    cbn [Online.rankIncoming_loop Online.stream Online.top_players
         Online.cutoffs Online.players_processed] in *.
  - destruct l; [|simpl in Hfuel; lia].
    pose proof (remaining_pending s Hwf) as Hrem. rewrite Hl in Hrem.
    rewrite Hrem. simpl. left. by exists s, buf, cuts, n.
  - pose proof (remaining_pending s Hwf) as Hrem. rewrite Hl in Hrem.
    destruct l as [|p l].
    { rewrite Hrem. simpl. left. by exists s, buf, cuts, n. }
    destruct (nextPlayer_Ok s Hwf) as (p' & _ & Hnext & Hwf' & Hpend).
    { rewrite Hrem. simpl. lia. }
    rewrite Hl in Hpend. injection Hpend as <- Hl'.
    rewrite Hrem, Hnext. cbn [length Z.ltb Z.of_nat Z.compare]. rewrite bind_Ok.
    assert (Hbuf : ∀ e : result (list Player),
      e = (if length buf <? k
           then if length (buf ++ [p]) =? k
                then Ok (make_heap level_gt (buf ++ [p])) else Ok (buf ++ [p])
           else f ← front buf;
                if (level_ f <? level_ p)%N then Online.replaceMin buf p else Ok buf) →
      e = Ok (buffer_step k buf p) ∨ (e = Err Overflow ∧ (2 ^ 30 ≤ Z.of_nat k)%Z)).
    { intros e ->. unfold buffer_step.
      destruct (Nat.ltb_spec (length buf) k) as [Hlt|Hge].
      - left. by destruct (_ =? _).
      - destruct buf as [|f buf]; [simpl in Hge; lia|]. cbn [front]. rewrite bind_Ok.
        destruct (_ <? _)%N; [|by left].
        destruct (replaceMin_sift (f :: buf) p) as [->|[-> Hover]]; [done | by left |].
        right. split; [done | lia]. }
    destruct (Hbuf _ eq_refl) as [->|[-> Hover]]; [|by right]. clear Hbuf.
    rewrite bind_Ok.
    assert (Hcuts :
      (if k =? 0 then Err DivByZero
       else if S n mod k =? 0
            then f ← front (buffer_step k buf p); Ok (<[S n := level_ f]> cuts)
            else Ok cuts)
      = Ok (step k (buf, cuts, n) p).1.2).
    { destruct (Nat.eqb_spec k 0); [lia|]. cbn [step fst snd].
      destruct (_ =? 0); [|done].
      pose proof (buffer_step_nonempty k buf p Hk).
      by destruct (buffer_step k buf p). }
    rewrite Hcuts, bind_Ok. clear Hcuts.
    destruct (IH (Online.mkState
                    (VectorPlayerStream.mk (players_ s) (S (currentIndex_ s)))
                    (buffer_step k buf p) (step k (buf, cuts, n) p).1.2 (S n)) l)
      as [(s' & buf' & cuts' & n' & Hrun & Hfold & Hrem')|[Hrun Hover]];
      [done | done | done | | | |].
    + simpl in Hfuel. lia.
    + cbn [Online.top_players]. rewrite buffer_step_length.
      destruct (Nat.ltb_spec (length buf) k); lia.
    + left. exists s', buf', cuts', n'. split_and!; [exact Hrun | exact Hfold | done].
    + by right.
Qed.

Lemma buffer_after_snoc k l p :
  buffer_after k (l ++ [p]) = buffer_step k (buffer_after k l) p.
Proof. unfold buffer_after. by rewrite foldl_app. Qed.

(** The state after the entities [l]: the buffer, the counter, and a
    checkpoint at every positive multiple of [k] up to [length l], holding the
    admission bar at that count. *)
Lemma fold_step_spec k l :
  1 ≤ k →
  ∃ cuts,
    foldl (step k) ([], ∅, 0) l = (buffer_after k l, cuts, length l) ∧
    ∀ c v, cuts !! c = Some v
           ↔ 0 < c ≤ length l ∧ c mod k = 0 ∧ bar k (take c l) = Some v.
Proof.
  intros Hk. induction l as [|p l IH] using rev_ind.
  { exists ∅. split; [done|]. intros c v. rewrite lookup_empty. simpl.
    split; [done | lia]. }
  destruct IH as (cuts & Hfold & Hcuts).
  rewrite foldl_app, Hfold. cbn [foldl step].
  rewrite <- buffer_after_snoc.
  assert (length (l ++ [p]) = S (length l)) as Hlen
    by (rewrite length_app; simpl; lia).
  rewrite Hlen. eexists. split; [reflexivity|].
  intros c v.
  assert (Hold : c ≤ length l → take c (l ++ [p]) = take c l)
    by (intros; by apply take_app_le).
  assert (Hnew : take (S (length l)) (l ++ [p]) = l ++ [p])
    by (apply take_ge; lia).
  destruct (Nat.eqb_spec (S (length l) mod k) 0) as [Hmod|Hmod].
  - assert (∃ f b, buffer_after k (l ++ [p]) = f :: b) as (f & b & Hbuf).
    { pose proof (buffer_step_nonempty k (buffer_after k l) p Hk) as Hne.
      rewrite <- buffer_after_snoc in Hne.
      destruct (buffer_after k (l ++ [p])) as [|f b]; [done | by exists f, b]. }
    rewrite Hbuf. destruct (decide (c = S (length l))) as [->|Hc].
    + rewrite lookup_insert_eq, Hnew. unfold bar. rewrite Hbuf. simpl.
      split; [intros; split_and!; [lia | lia | done | done] | by intros (_ & _ & ?)].
    + rewrite lookup_insert_ne by done. rewrite Hcuts. split.
      * intros (? & ? & ?). rewrite Hold by lia. split_and!; [lia | lia | done | done].
      * intros (? & ? & Hbar). rewrite Hold in Hbar by lia.
        split_and!; [lia | lia | done | done].
  - rewrite Hcuts. split.
    + intros (? & ? & ?). rewrite Hold by lia. split_and!; [lia | lia | done | done].
    + intros (? & Hc & Hbar).
      assert (c ≠ S (length l)) by (intros ->; done).
      rewrite Hold in Hbar by lia. split_and!; [lia | lia | done | done].
Qed.

Lemma heap_from_replace_root comp f p b :
  is_heap comp (f :: b) → heap_from comp (p :: b) 1.
Proof.
  intros Hheap i Hi c x y Hc Hx Hy.
  apply (Hheap i ltac:(lia) c); [done | |].
  - destruct i; [lia | done].
  - destruct c; [lia | done].
Qed.

(** The buffer holds the [min k n] entities of greatest level among the [n]
    seen, and it is a min-heap once it is full. *)
Lemma buffer_after_inv k l :
  1 ≤ k →
  length (buffer_after k l) = k `min` length l ∧
  (k ≤ length l → is_heap level_gt (buffer_after k l)) ∧
  ∃ rest, l ≡ₚ buffer_after k l ++ rest ∧
          ∀ x y, x ∈ buffer_after k l → y ∈ rest → (level_ y ≤ level_ x)%N.
Proof.
  intros Hk. induction l as [|p l IH] using rev_ind.
  { split_and!; [simpl; lia | simpl; lia |].
    exists []. split; [done|]. intros x y Hx. by apply elem_of_nil in Hx. }
  destruct IH as (Hlen & Hheap & rest & Hperm & Hdom).
  rewrite buffer_after_snoc.
  assert (length (l ++ [p]) = S (length l)) as Hlen'
    by (rewrite length_app; simpl; lia).
  rewrite Hlen'. set (buf := buffer_after k l) in *.
  unfold buffer_step. destruct (Nat.ltb_spec (length buf) k) as [Hlt|Hge].
  - assert (rest = []) as ->.
    { apply nil_length_inv. apply Permutation_length in Hperm.
      rewrite length_app in Hperm. lia. }
    rewrite app_nil_r in Hperm.
    assert (Hperm' : ∀ b, b ≡ₚ buf ++ [p] → l ++ [p] ≡ₚ b ++ []).
    { intros b ->. by rewrite app_nil_r, Hperm. }
    assert (Hdom' : ∀ (b : list Player) (x y : Player),
               x ∈ b → y ∈ @nil Player → (level_ y ≤ level_ x)%N).
    { intros b x y _ Hy. by apply elem_of_nil in Hy. }
    assert (length (buf ++ [p]) = S (length buf)) as Hlenb
      by (rewrite length_app; simpl; lia).
    destruct (Nat.eqb_spec (length (buf ++ [p])) k) as [Heq|Hne].
    + split_and!.
      * rewrite make_heap_length. lia.
      * intros _. apply make_heap_is_heap;
          [apply level_gt_asym | apply level_gt_negtrans].
      * exists []. split; [apply Hperm', make_heap_perm | apply Hdom'].
    + split_and!; [lia | lia |].
      exists []. split; [by apply Hperm' | apply Hdom'].
  - assert (length buf = k) as Hfull by lia.
    specialize (Hheap ltac:(lia)).
    destruct buf as [|f b] eqn:Hbuf; [simpl in Hfull; lia|].
    assert (Hroot : ∀ x, x ∈ f :: b → (level_ f ≤ level_ x)%N).
    { intros x Hx. by apply (min_heap_root (f :: b)). }
    destruct (N.ltb_spec (level_ f) (level_ p)) as [Hfp|Hpf].
    + split_and!.
      * rewrite sift_down_length. simpl in *. lia.
      * intros _. apply (sift_down_heap _ level_gt_asym level_gt_negtrans).
        by apply (heap_from_replace_root _ f).
      * exists (f :: rest). split.
        { rewrite sift_down_perm. simpl. rewrite Hperm. simpl.
          rewrite <- !Permutation_middle, app_nil_r. apply Permutation_swap. }
        intros x y Hx Hy. rewrite sift_down_perm in Hx. simpl in Hx.
        assert (level_ f ≤ level_ x)%N as Hfx.
        { apply elem_of_cons in Hx as [->|Hx]; [lia|]. apply Hroot. by right. }
        apply elem_of_cons in Hy as [->|Hy]; [done|].
        pose proof (Hdom f y ltac:(by left) Hy). lia.
    + split_and!; [simpl in *; lia | done |].
      exists (p :: rest). split.
      { rewrite (Permutation_app_comm l [p]). simpl. rewrite Hperm.
        apply Permutation_middle. }
      intros x y Hx Hy. specialize (Hroot x Hx).
      apply elem_of_cons in Hy as [->|Hy]; [lia|].
      by apply Hdom.
Qed.

(** ** The admission bar *)

Lemma foldr_min_le a l x : x ∈ a :: l → (foldr N.min a l ≤ x)%N.
Proof.
  induction l as [|y l IH]; simpl.
  - intros ->%list_elem_of_singleton. lia.
  - intros Hx. apply elem_of_cons in Hx as [->|Hx].
    + etrans; [apply N.le_min_r|]. apply IH. by left.
    + apply elem_of_cons in Hx as [->|Hx]; [apply N.le_min_l|].
      etrans; [apply N.le_min_r|]. apply IH. by right.
Qed.

Lemma foldr_min_elem a l : foldr N.min a l ∈ a :: l.
Proof.
  induction l as [|y l IH]; simpl; [by left|].
  destruct (N.min_spec y (foldr N.min a l)) as [[_ ->]|[_ ->]].
  - right. by left.
  - apply elem_of_cons in IH as [->|IH]; [by left | by do 2 right].
Qed.

Lemma minimum_unique l m :
  m ∈ l → (∀ x, x ∈ l → (m ≤ x)%N) → minimum l = Some m.
Proof.
  destruct l as [|a l]; [by intros ?%elem_of_nil|]. intros Hm Hle. simpl. f_equal.
  pose proof (foldr_min_le a l m Hm). pose proof (Hle _ (foldr_min_elem a l)). lia.
Qed.

Lemma bar_is_Some k l :
  1 ≤ k → l ≠ [] → ∃ f b, buffer_after k l = f :: b ∧ bar k l = Some (level_ f).
Proof.
  intros Hk Hl. destruct (buffer_after_inv k l Hk) as (Hlen & _).
  unfold bar. destruct (buffer_after k l) as [|f b]; [|by exists f, b].
  destruct l; [done|]. simpl in Hlen. lia.
Qed.

(** Sorted, the buffer shows the [k] greatest levels seen. *)
Lemma sorted_buffer_top_levels k l :
  1 ≤ k → levels (std_sort level_lt (buffer_after k l)) = top_levels k l.
Proof.
  intros Hk.
  destruct (buffer_after_inv k l Hk) as (Hlen & _ & rest & Hperm & Hdom).
  rewrite top_levels_min, <- Hlen, <- (std_sort_length level_lt (buffer_after k l)).
  apply (top_levels_split l rest).
  - by rewrite std_sort_perm, Permutation_app_comm.
  - intros x y Hx Hy. rewrite std_sort_perm in Hy. by apply Hdom.
  - apply std_sort_level_lt_ascending.
Qed.

(** Once the buffer is full, its front level is the least of the [k]
    greatest levels seen. *)
Lemma bar_minimum k l :
  1 ≤ k → k ≤ length l → bar k l = minimum (top_levels k l).
Proof.
  intros Hk Hl.
  destruct (buffer_after_inv k l Hk) as (_ & Hheap & _).
  specialize (Hheap Hl).
  destruct (bar_is_Some k l Hk) as (f & b & Hbuf & ->).
  { intros ->. simpl in Hl. lia. }
  rewrite <- (sorted_buffer_top_levels k l Hk).
  symmetry. apply minimum_unique.
  - unfold levels. apply list_elem_of_fmap. exists f. split; [done|].
    rewrite std_sort_perm, Hbuf. by left.
  - intros x Hx. unfold levels in Hx.
    apply list_elem_of_fmap in Hx as (y & -> & Hy). rewrite std_sort_perm in Hy.
    apply (min_heap_root (buffer_after k l)); [done | by rewrite Hbuf | done].
Qed.

(** The bar never drops once the buffer is full. *)
Lemma bar_step k l p v1 v2 :
  1 ≤ k → k ≤ length l →
  bar k l = Some v1 → bar k (l ++ [p]) = Some v2 → (v1 ≤ v2)%N.
Proof.
  intros Hk Hl. unfold bar. rewrite buffer_after_snoc.
  destruct (buffer_after_inv k l Hk) as (Hlen & Hheap & _).
  specialize (Hheap Hl). set (buf := buffer_after k l) in *.
  unfold buffer_step. destruct (Nat.ltb_spec (length buf) k) as [|_]; [lia|].
  destruct buf as [|f b] eqn:Hbuf; [done|]. simpl. intros [= <-].
  destruct (N.ltb_spec (level_ f) (level_ p)) as [Hfp|Hpf].
  2:{ simpl. intros [= <-]. lia. }
  destruct (sift_down level_gt (p :: b) 0) as [|g b'] eqn:Hsift; [done|].
  simpl. intros [= <-].
  assert (g ∈ p :: b) as Hg.
  { rewrite <- (sift_down_perm level_gt (p :: b) 0), Hsift. by left. }
  apply elem_of_cons in Hg as [->|Hg]; [lia|].
  apply (min_heap_root (f :: b)); [done | done | by right].
Qed.

Lemma bar_mono k l d : ∀ a v1 v2,
  1 ≤ k → k ≤ a → a + d ≤ length l →
  bar k (take a l) = Some v1 → bar k (take (a + d) l) = Some v2 → (v1 ≤ v2)%N.
Proof.
  induction d as [|d IH]; intros a v1 v2 Hk Ha Hlen H1 H2.
  { rewrite Nat.add_0_r in H2. assert (v1 = v2) by congruence. lia. }
  destruct (lookup_lt_is_Some_2 l (a + d)) as [x Hx]; [lia|].
  replace (a + S d) with (S (a + d)) in H2 by lia.
  rewrite (take_S_r _ _ _ Hx) in H2.
  destruct (bar_is_Some k (take (a + d) l) Hk) as (f & b & _ & Hbar).
  { intros Hnil. apply (f_equal length) in Hnil.
    rewrite length_take in Hnil. simpl in Hnil. lia. }
  trans (level_ f).
  - apply (IH a); [done | done | lia | done | done].
  - apply (bar_step k (take (a + d) l) x); [done | | done | done].
    rewrite length_take. lia.
Qed.

(** ** The streaming selector, end to end *)

Lemma rankIncoming_spec s k :
  VectorPlayerStream.wf s → 1 ≤ k →
  (∃ r s', Online.rankIncoming s k = Ok (r, s') ∧ outcome_spec s k r s') ∨
  (Online.rankIncoming s k = Err Overflow ∧ (2 ^ 30 ≤ Z.of_nat k)%Z).
Proof.
  intros Hwf Hk. unfold Online.rankIncoming, outcome_spec.
  set (l := VectorPlayerStream.pending s).
  destruct (rankIncoming_loop_run k (length (players_ s)) (Online.mkState s [] ∅ 0) l)
    as [(s' & buf & cuts & n & -> & Hfold & Hrem)|[-> Hover]];
    [done | done | done | | simpl; lia | | by right].
  { unfold l, VectorPlayerStream.pending. rewrite length_drop. lia. }
  left.
  destruct (fold_step_spec k l Hk) as (cuts' & Hfold' & Hcuts).
  cbn [Online.top_players Online.cutoffs Online.players_processed] in Hfold.
  rewrite Hfold' in Hfold. injection Hfold as <- <- <-.
  rewrite bind_Ok.
  cbn [Online.top_players Online.cutoffs Online.players_processed Online.stream].
  destruct (decide (l = [])) as [Hl|Hl].
  - rewrite Hl in *. cbn. eexists _, _. split; [done|].
    split_and!; [done | done |]. cbn [cutoffs_]. intros c v. rewrite Hcuts.
    simpl. split; [lia | lia].
  - destruct (bar_is_Some k l Hk Hl) as (f & b & Hbuf & Hbar).
    rewrite Hbuf. cbn. eexists _, _. split; [done|].
    split_and!; [done | done |]. cbn [cutoffs_]. intros c v.
    assert (0 < length l) by (destruct l; [done | simpl; lia]).
    destruct (decide (c = length l)) as [->|Hc].
    + rewrite lookup_insert_eq, firstn_all, Hbar.
      split; [intros; split_and!; [lia | lia | by right | done] | by intros (_ & _ & ?)].
    + rewrite lookup_insert_ne by done. rewrite Hcuts. split.
      * intros (? & ? & ?). split_and!; [lia | lia | by left | done].
      * intros (? & [?|?] & ?); [|done]. split_and!; [lia | lia | done | done].
Qed.

(** It returns for every capacity below 2^30 ... *)
Lemma rankIncoming_returns s k :
  VectorPlayerStream.wf s → 1 ≤ k → (Z.of_nat k < 2 ^ 30)%Z →
  ∃ r s', Online.rankIncoming s k = Ok (r, s').
Proof.
  intros Hwf Hk Hsmall.
  destruct (rankIncoming_spec s k Hwf Hk) as [(r & s' & Hrun & _)|[_ Hover]]; [|lia].
  by exists r, s'.
Qed.

(** ... and whatever it returns is as described. *)
Lemma rankIncoming_outcome s k r s' :
  VectorPlayerStream.wf s → 1 ≤ k →
  Online.rankIncoming s k = Ok (r, s') → outcome_spec s k r s'.
Proof.
  intros Hwf Hk Hrun.
  destruct (rankIncoming_spec s k Hwf Hk) as [(r0 & s0 & Hrun0 & Hspec)|[Hrun0 _]];
    congruence.
Qed.

(** ** The claims about the streaming selector *)

(** The stream of scenario C: levels 5, 1, 9, 2, 8, 3. *)
Lemma wf_scenario :
  VectorPlayerStream.wf (VectorPlayerStream.new (player <$> [5; 1; 9; 2; 8; 3]%N)).
Proof. apply wf_new. simpl. lia. Defined.

(** C10.  With a capacity of at least one, no call of [nextPlayer] meets an
    exhausted source and no [front()] meets an empty buffer: either would
    surface as the error [Exhausted] or [OutOfRange].  For every capacity
    below 2^30 the call returns, with the source drained. *)
Theorem rankIncoming_never_fails (s : VectorPlayerStream.t) (k : nat) :
  VectorPlayerStream.wf s → 1 ≤ k →
  Online.rankIncoming s k ≠ Err Exhausted ∧
  Online.rankIncoming s k ≠ Err OutOfRange ∧
  ((Z.of_nat k < 2 ^ 30)%Z →
   ∃ r s', Online.rankIncoming s k = Ok (r, s') ∧
           VectorPlayerStream.remaining s' = 0%Z).
Proof.
  intros Hwf Hk.
  destruct (rankIncoming_spec s k Hwf Hk)
    as [(r & s' & Hrun & Hrem & _)|[Hrun Hover]]; rewrite Hrun.
  - split_and!; [done | done |]. intros _. by exists r, s'.
  - split_and!; [done | done | lia].
Qed.

Lemma rankIncoming_never_fails_witness :
  VectorPlayerStream.wf (VectorPlayerStream.new (player <$> [5; 1; 9; 2; 8; 3]%N)) ∧
  1 ≤ 3 ∧ (Z.of_nat 3 < 2 ^ 30)%Z ∧
  Online.rankIncoming (VectorPlayerStream.new (player <$> [5; 1; 9; 2; 8; 3]%N)) 3
  ≠ Err Exhausted ∧
  ∃ r s',
    Online.rankIncoming (VectorPlayerStream.new (player <$> [5; 1; 9; 2; 8; 3]%N)) 3
    = Ok (r, s') ∧ VectorPlayerStream.remaining s' = 0%Z.
Proof.
  split; [exact wf_scenario|]. split; [lia|]. split; [reflexivity|].
  destruct (rankIncoming_never_fails _ 3 wf_scenario) as (Hex & _ & Hret); [lia|].
  split; [exact Hex|]. apply Hret. reflexivity.
Defined.

(** C4.  With a capacity [k] of at least one, the top that [rankIncoming]
    returns has [min k n] entities for [n] entities seen; its levels are the
    [k] greatest levels seen; and when the levels are pairwise distinct,
    every entity left out has a level strictly below every entity of the
    top.  The call does return for every capacity below 2^30. *)
Theorem rankIncoming_top_is_k_greatest (s : VectorPlayerStream.t) (k : nat) :
  VectorPlayerStream.wf s → 1 ≤ k →
  ((Z.of_nat k < 2 ^ 30)%Z → ∃ r s', Online.rankIncoming s k = Ok (r, s')) ∧
  ∀ r s',
    Online.rankIncoming s k = Ok (r, s') →
    length (top_ r) = k `min` length (VectorPlayerStream.pending s) ∧
    levels (top_ r) = top_levels k (VectorPlayerStream.pending s) ∧
    (NoDup (levels (VectorPlayerStream.pending s)) →
     ∃ rest, VectorPlayerStream.pending s ≡ₚ top_ r ++ rest ∧
             ∀ x y, x ∈ top_ r → y ∈ rest → (level_ y < level_ x)%N).
Proof.
  intros Hwf Hk. split; [by apply rankIncoming_returns|].
  intros r s' Hrun.
  destruct (rankIncoming_outcome s k r s' Hwf Hk Hrun) as (_ & Htop & _).
  rewrite Htop. clear Hrun Htop.
  set (l := VectorPlayerStream.pending s).
  destruct (buffer_after_inv k l Hk) as (Hlen & _ & rest & Hperm & Hdom).
  set (buf := buffer_after k l) in *.
  split_and!.
  - rewrite std_sort_length. lia.
  - by apply sorted_buffer_top_levels.
  - intros Hnodup. exists rest. split; [by rewrite std_sort_perm|].
    intros x y Hx Hy. rewrite std_sort_perm in Hx.
    pose proof (Hdom x y Hx Hy) as Hle.
    assert (level_ y ≠ level_ x); [|lia].
    unfold levels in Hnodup. rewrite Hperm, fmap_app in Hnodup.
    apply NoDup_app in Hnodup as (_ & Hdisj & _).
    intros Heq. apply (Hdisj (level_ x)).
    + apply list_elem_of_fmap. by exists x.
    + apply list_elem_of_fmap. by exists y.
Qed.

Lemma rankIncoming_top_is_k_greatest_witness :
  VectorPlayerStream.wf (VectorPlayerStream.new (player <$> [5; 1; 9; 2; 8; 3]%N)) ∧
  1 ≤ 3 ∧ (Z.of_nat 3 < 2 ^ 30)%Z ∧
  ∃ r s',
    Online.rankIncoming (VectorPlayerStream.new (player <$> [5; 1; 9; 2; 8; 3]%N)) 3
    = Ok (r, s') ∧
    length (top_ r) = 3 ∧
    levels (top_ r) = [5; 8; 9]%N.
Proof.
  split; [exact wf_scenario|]. split; [lia|]. split; [reflexivity|].
  destruct (rankIncoming_top_is_k_greatest _ 3 wf_scenario) as [Hret Hout]; [lia|].
  destruct Hret as (r & s' & Hrun); [reflexivity|].
  destruct (Hout r s' Hrun) as (Hlen & Hlev & _).
  exists r, s'. split; [exact Hrun|]. split; [exact Hlen | exact Hlev].
Defined.

(** C6.  In the checkpoints that [rankIncoming] returns, every key [c] that
    is a positive multiple of [k], at most the number of entities processed,
    holds the least level among the [k] greatest levels of the first [c]
    entities.  The call does return for every capacity below 2^30. *)
Theorem checkpoint_is_min_of_top_k_of_prefix (s : VectorPlayerStream.t) (k : nat) :
  VectorPlayerStream.wf s → 1 ≤ k →
  ((Z.of_nat k < 2 ^ 30)%Z → ∃ r s', Online.rankIncoming s k = Ok (r, s')) ∧
  ∀ r s',
    Online.rankIncoming s k = Ok (r, s') →
    ∀ c v, cutoffs_ r !! c = Some v →
           0 < c → c mod k = 0 → c ≤ length (VectorPlayerStream.pending s) →
           minimum (top_levels k (take c (VectorPlayerStream.pending s))) = Some v.
Proof.
  intros Hwf Hk. split; [by apply rankIncoming_returns|].
  intros r s' Hrun c v Hc Hpos Hmod Hle.
  destruct (rankIncoming_outcome s k r s' Hwf Hk Hrun) as (_ & _ & Hcuts).
  apply Hcuts in Hc as (_ & _ & <-). symmetry. apply bar_minimum; [done|].
  rewrite length_take.
  assert (k ≤ c); [|lia].
  destruct (Nat.le_gt_cases k c) as [|Hlt]; [done|].
  rewrite Nat.mod_small in Hmod by done. lia.
Qed.

Lemma checkpoint_is_min_of_top_k_of_prefix_witness :
  VectorPlayerStream.wf (VectorPlayerStream.new (player <$> [5; 1; 9; 2; 8; 3]%N)) ∧
  1 ≤ 3 ∧ (Z.of_nat 3 < 2 ^ 30)%Z ∧
  ∃ r s',
    Online.rankIncoming (VectorPlayerStream.new (player <$> [5; 1; 9; 2; 8; 3]%N)) 3
    = Ok (r, s') ∧
    cutoffs_ r !! 3 = Some 1%N ∧
    minimum (top_levels 3 (player <$> [5; 1; 9]%N)) = Some 1%N.
Proof.
  split; [exact wf_scenario|]. split; [lia|]. split; [reflexivity|].
  destruct (checkpoint_is_min_of_top_k_of_prefix _ 3 wf_scenario) as [Hret Hout]; [lia|].
  destruct Hret as (r & s' & Hrun); [reflexivity|].
  assert (Hc : cutoffs_ r !! 3 = Some 1%N).
  { pose proof Hrun as Hval. vm_compute in Hval. injection Hval as <- _. reflexivity. }
  exists r, s'. split; [exact Hrun|]. split; [exact Hc|].
  apply (Hout r s' Hrun 3 1%N Hc); [lia | reflexivity | simpl; lia].
Defined.

(** C7.  The checkpoint values that [rankIncoming] returns are non-decreasing
    in the processed count: for any two keys [c1 < c2] the value at [c1] is
    at most the value at [c2].  The call does return for every capacity
    below 2^30. *)
Theorem checkpoints_nondecreasing (s : VectorPlayerStream.t) (k : nat) :
  VectorPlayerStream.wf s → 1 ≤ k →
  ((Z.of_nat k < 2 ^ 30)%Z → ∃ r s', Online.rankIncoming s k = Ok (r, s')) ∧
  ∀ r s',
    Online.rankIncoming s k = Ok (r, s') →
    ∀ c1 c2 v1 v2, cutoffs_ r !! c1 = Some v1 → cutoffs_ r !! c2 = Some v2 →
                   c1 < c2 → (v1 ≤ v2)%N.
Proof.
  intros Hwf Hk. split; [by apply rankIncoming_returns|].
  intros r s' Hrun c1 c2 v1 v2 H1 H2 Hlt.
  destruct (rankIncoming_outcome s k r s' Hwf Hk Hrun) as (_ & _ & Hcuts).
  apply Hcuts in H1 as (Hc1 & Hkey1 & Hbar1).
  apply Hcuts in H2 as (Hc2 & _ & Hbar2).
  destruct Hkey1 as [Hmod|?]; [|lia].
  assert (k ≤ c1).
  { destruct (Nat.le_gt_cases k c1) as [|Hsmall]; [done|].
    rewrite Nat.mod_small in Hmod by done. lia. }
  replace c2 with (c1 + (c2 - c1)) in Hbar2 by lia.
  apply (bar_mono k (VectorPlayerStream.pending s) (c2 - c1) c1);
    [done | done | lia | done | done].
Qed.

Lemma checkpoints_nondecreasing_witness :
  VectorPlayerStream.wf (VectorPlayerStream.new (player <$> [5; 1; 9; 2; 8; 3]%N)) ∧
  1 ≤ 3 ∧ (Z.of_nat 3 < 2 ^ 30)%Z ∧
  ∃ r s',
    Online.rankIncoming (VectorPlayerStream.new (player <$> [5; 1; 9; 2; 8; 3]%N)) 3
    = Ok (r, s') ∧
    ∃ v1 v2, cutoffs_ r !! 3 = Some v1 ∧ cutoffs_ r !! 6 = Some v2 ∧ (v1 ≤ v2)%N.
Proof.
  split; [exact wf_scenario|]. split; [lia|]. split; [reflexivity|].
  destruct (checkpoints_nondecreasing _ 3 wf_scenario) as [Hret Hout]; [lia|].
  destruct Hret as (r & s' & Hrun); [reflexivity|].
  assert (Hc : cutoffs_ r !! 3 = Some 1%N ∧ cutoffs_ r !! 6 = Some 5%N) .
  { pose proof Hrun as Hval. vm_compute in Hval. injection Hval as <- _.
    split; reflexivity. }
  destruct Hc as [Hc3 Hc6].
  exists r, s'. split; [exact Hrun|].
  exists 1%N, 5%N. split; [exact Hc3|]. split; [exact Hc6|].
  apply (Hout r s' Hrun 3 6 1%N 5%N Hc3 Hc6). lia.
Defined.

Lemma rankIncoming_ascending s k r s' :
  Online.rankIncoming s k = Ok (r, s') → ascending (top_ r).
Proof.
  unfold Online.rankIncoming.
  destruct (Online.rankIncoming_loop _ _ _) as [st|]; [|done]. rewrite bind_Ok.
  match goal with |- context [?m ≫= _] => destruct m as [cuts|] end; [|done].
  rewrite bind_Ok. intros [= <- _]. apply std_sort_level_lt_ascending.
Qed.

(** C8.  The top returned by each of the three selectors is ascending by
    level.  [heapRank] always returns, and its top is ascending.  Whenever
    [quickSelectRank] or [rankIncoming] returns, its top is ascending; and
    they do return, the first on every vector whose size fits the [int]
    indices it works with, the second on every stream for every capacity
    from 1 to below 2^30. *)
Theorem top_is_ascending :
  (∀ players, ascending (top_ (Offline.heapRank players).1)) ∧
  (∀ players r v, Offline.quickSelectRank players = Ok (r, v) → ascending (top_ r)) ∧
  (∀ players, (Z.of_nat (length players) < 2 ^ 31)%Z →
              is_Ok (Offline.quickSelectRank players)) ∧
  (∀ s k r s', Online.rankIncoming s k = Ok (r, s') → ascending (top_ r)) ∧
  (∀ s k, VectorPlayerStream.wf s → 1 ≤ k → (Z.of_nat k < 2 ^ 30)%Z →
          is_Ok (Online.rankIncoming s k)).
Proof.
  split_and!.
  - intros players.
    by destruct (heapRank_spec players) as (h & t & _ & -> & _ & _ & Hasc & _).
  - apply quickSelectRank_ascending.
  - apply quickSelectRank_Ok.
  - apply rankIncoming_ascending.
  - intros s k Hwf Hk Hsmall.
    destruct (rankIncoming_returns s k Hwf Hk Hsmall) as (r & s' & Hrun).
    by exists (r, s').
Qed.

Lemma top_is_ascending_witness :
  ascending (top_ (Offline.heapRank (player <$> [3; 1; 4; 1; 5; 9; 2; 6; 5; 3]%N)).1) ∧
  (∃ r v, Offline.quickSelectRank (player <$> [3; 1; 4; 1; 5; 9; 2; 6; 5; 3]%N)
          = Ok (r, v) ∧ ascending (top_ r)) ∧
  is_Ok (Offline.quickSelectRank (player <$> [3; 1; 4; 1; 5; 9; 2; 6; 5; 3]%N)) ∧
  (∃ r s',
     Online.rankIncoming (VectorPlayerStream.new (player <$> [5; 1; 9; 2; 8; 3]%N)) 3
     = Ok (r, s') ∧ ascending (top_ r)) ∧
  is_Ok (Online.rankIncoming
           (VectorPlayerStream.new (player <$> [5; 1; 9; 2; 8; 3]%N)) 3).
Proof.
  destruct top_is_ascending as (Hheap & Hquick & Hquick_ok & Hstream & Hstream_ok).
  split; [apply Hheap|]. split; [|split; [|split]].
  - eexists _, _. split; [vm_compute; reflexivity|].
    eapply (Hquick (player <$> [3; 1; 4; 1; 5; 9; 2; 6; 5; 3]%N)).
    vm_compute. reflexivity.
  - apply Hquick_ok. simpl. lia.
  - eexists _, _. split; [vm_compute; reflexivity|].
    eapply (Hstream (VectorPlayerStream.new (player <$> [5; 1; 9; 2; 8; 3]%N)) 3).
    vm_compute. reflexivity.
  - apply Hstream_ok; [exact wf_scenario | lia | reflexivity].
Defined.

(** C2.  A capacity of zero on an exhausted source is not rejected: the call
    returns an empty outcome. *)
Lemma rankIncoming_zero_capacity_not_rejected :
  Online.rankIncoming (VectorPlayerStream.new []) 0
  = Ok (mkRankingResult [] ∅, VectorPlayerStream.new []) ∧
  ¬ ∃ e, Online.rankIncoming (VectorPlayerStream.new []) 0 = Err e.
Proof. split; [done|]. intros [e He]. discriminate He. Qed.

(** C2, as the code has it.  On a source with nothing left, [rankIncoming]
    with capacity zero returns the empty top and no checkpoints, and leaves
    the source as it found it. *)
Theorem rankIncoming_zero_capacity_exhausted (s : VectorPlayerStream.t) :
  VectorPlayerStream.remaining s = 0%Z →
  Online.rankIncoming s 0 = Ok (mkRankingResult [] ∅, s).
Proof.
  intros Hrem. unfold Online.rankIncoming.
  assert (Online.rankIncoming_loop (length (players_ s)) 0 (Online.mkState s [] ∅ 0)
          = Ok (Online.mkState s [] ∅ 0)) as ->.
  { destruct (length (players_ s)); cbn [Online.rankIncoming_loop Online.stream];
      by rewrite Hrem. }
  done.
Qed.

Lemma rankIncoming_zero_capacity_exhausted_witness :
  VectorPlayerStream.remaining (VectorPlayerStream.mk [player 5; player 1] 2) = 0%Z ∧
  Online.rankIncoming (VectorPlayerStream.mk [player 5; player 1] 2) 0
  = Ok (mkRankingResult [] ∅, VectorPlayerStream.mk [player 5; player 1] 2).
Proof.
  split; [reflexivity|].
  apply (rankIncoming_zero_capacity_exhausted
           (VectorPlayerStream.mk [player 5; player 1] 2)).
  reflexivity.
Defined.

(** Capacity zero on a source that still has an entity: the entity is taken,
    then the comparison reads the front of the empty buffer. *)
Example rankIncoming_zero_capacity_nonempty :
  Online.rankIncoming (VectorPlayerStream.new [player 5]) 0 = Err OutOfRange.
Proof. reflexivity. Qed.

(** Once at least [k] entities have gone through, the final checkpoint does
    hold the least level of the returned top. *)
Lemma rankIncoming_final_checkpoint_full s k r s' :
  VectorPlayerStream.wf s → 1 ≤ k → k ≤ length (VectorPlayerStream.pending s) →
  Online.rankIncoming s k = Ok (r, s') →
  cutoffs_ r !! length (VectorPlayerStream.pending s) = minimum (levels (top_ r)) ∧
  is_Some (cutoffs_ r !! length (VectorPlayerStream.pending s)).
Proof.
  intros Hwf Hk Hlen Hrun.
  destruct (rankIncoming_outcome s k r s' Hwf Hk Hrun) as (_ & Htop & Hcuts).
  rewrite Htop, sorted_buffer_top_levels by done.
  set (l := VectorPlayerStream.pending s) in *.
  destruct (bar_is_Some k l Hk) as (f & b & _ & Hbar).
  { intros Hl. rewrite Hl in Hlen. simpl in Hlen. lia. }
  assert (cutoffs_ r !! length l = Some (level_ f)) as Hfinal.
  { apply Hcuts. rewrite firstn_all. split_and!; [lia | lia | by right | done]. }
  rewrite Hfinal, <- bar_minimum, Hbar by done. split; [done | by eexists].
Qed.

(** C3.  On the stream 5, 1 with capacity 3 the buffer never fills and is
    never made a heap: the final checkpoint, at count 2, holds the level of
    the first entity, 5, while the least level of the returned top is 1. *)
Theorem rankIncoming_short_stream_final_checkpoint :
  ∃ r s',
    Online.rankIncoming (VectorPlayerStream.new [player 5; player 1]) 3 = Ok (r, s') ∧
    levels (top_ r) = [1; 5]%N ∧
    cutoffs_ r !! 2 = Some 5%N ∧
    minimum (levels (top_ r)) = Some 1%N.
Proof. eexists _, _. split; [vm_compute; reflexivity|]. by vm_compute. Qed.


(** * Further properties of the code *)

(** ** [Offline::partition], [Offline::quickSelect] and [Offline::quickSort] *)

(** X1.  On a range [low..high] inside a vector of fewer than 2^31 entries,
    [partition] takes the entry at [high] as pivot and returns its final
    position [p] in the range: the entries of the range before [p] have a
    level at least the pivot's, those after [p] a level strictly below it;
    the vector is rearranged, and not touched outside the range. *)
Theorem partition_splits_range_at_pivot (v : list Player) (low high : nat) :
  (Z.of_nat high < 2 ^ 31)%Z → low ≤ high → high < length v →
  ∃ v' p pivot,
    Offline.partition v (Z.of_nat low) (Z.of_nat high) = Ok (v', Z.of_nat p) ∧
    low ≤ p ≤ high ∧
    v !! high = Some pivot ∧ v' !! p = Some pivot ∧
    (∀ j x, low ≤ j < p → v' !! j = Some x → (level_ pivot ≤ level_ x)%N) ∧
    (∀ j x, p < j ≤ high → v' !! j = Some x → (level_ x < level_ pivot)%N) ∧
    v' ≡ₚ v ∧
    (∀ j, j < low ∨ high < j → v' !! j = v !! j).
Proof.
  intros Hint Hlow Hhigh. unfold Offline.partition.
  destruct (lookup_lt_is_Some_2 v high Hhigh) as [pivot Hpivot].
  rewrite (vec_at_nat _ _ _ Hpivot), bind_Ok.
  rewrite (int_val_small (Z.of_nat low - 1)), bind_Ok by lia.
  destruct (partition_loop_spec pivot low high
              (Z.to_nat (Z.of_nat high - Z.of_nat low)) v low low)
    as (v1 & p & -> & Hp & Hpivot1 & HA & HB & Hre);
    [done | lia | lia | lia | lia | lia | done | intros; lia | intros; lia |].
  rewrite bind_Ok.
  pose proof (rearranged_length _ _ _ _ Hre) as Hlen.
  destruct (lookup_lt_is_Some_2 v1 p ltac:(lia)) as [q Hq].
  rewrite (int_val_small (Z.of_nat p - 1 + 1)), bind_Ok by lia.
  replace (Z.of_nat p - 1 + 1)%Z with (Z.of_nat p) by lia.
  rewrite (vec_swap_nat _ _ _ _ _ Hq Hpivot1), bind_Ok.
  assert (Hre' : rearranged_within low high v (swap v1 p high)).
  { eapply rearranged_trans; [exact Hre|].
    apply (rearranged_swap _ _ _ _ _ q pivot); [lia | lia | done | done]. }
  exists (swap v1 p high), p, pivot.
  split_and!; [done | lia | lia | done | | | | apply Hre' | apply Hre'].
  - rewrite (swap_lookup _ _ _ _ _ _ Hq Hpivot1). by rewrite decide_True.
  - intros j x Hj. rewrite (swap_lookup _ _ _ _ _ _ Hq Hpivot1).
    rewrite !decide_False by lia. by apply HA.
  - intros j x Hj. rewrite (swap_lookup _ _ _ _ _ _ Hq Hpivot1).
    rewrite decide_False by lia. destruct (decide (j = high)) as [->|].
    + intros [= <-]. apply (HB p); [lia | done].
    + apply HB. lia.
Qed.

Lemma partition_splits_range_at_pivot_witness :
  (Z.of_nat 4 < 2 ^ 31)%Z ∧ 1 ≤ 4 ∧ 4 < length (player <$> [9; 1; 4; 1; 3; 7]%N) ∧
  ∃ v' p pivot,
    Offline.partition (player <$> [9; 1; 4; 1; 3; 7]%N) (Z.of_nat 1) (Z.of_nat 4)
    = Ok (v', Z.of_nat p) ∧
    1 ≤ p ≤ 4 ∧ v' !! p = Some pivot ∧ v' ≡ₚ player <$> [9; 1; 4; 1; 3; 7]%N.
Proof.
  split; [reflexivity|]. split; [lia|]. split; [simpl; lia|].
  destruct (partition_splits_range_at_pivot (player <$> [9; 1; 4; 1; 3; 7]%N) 1 4)
    as (v' & p & pivot & Hrun & Hp & _ & Hpivot & _ & _ & Hperm & _);
    [reflexivity | lia | simpl; lia |].
  exists v', p, pivot. split; [exact Hrun|]. split; [exact Hp|].
  split; [exact Hpivot | exact Hperm].
Defined.

(** X2.  [quickSelect] over the whole of a vector of fewer than 2^31 entries
    returns for every cutoff, with the vector rearranged; for a cutoff that
    is an index of the vector, no entry from the cutoff on has a level above
    an entry before the cutoff. *)
Theorem quickSelect_splits_at_cutoff (players : list Player) (cutoffIndex : Z) :
  (Z.of_nat (length players) < 2 ^ 31)%Z →
  ∃ v,
    Offline.quickSelect players 0 (Z.of_nat (length players) - 1) cutoffIndex = Ok v ∧
    v ≡ₚ players ∧
    ((0 ≤ cutoffIndex < Z.of_nat (length players))%Z →
     descending_split v (Z.to_nat cutoffIndex)).
Proof.
  intros Hn. unfold Offline.quickSelect.
  destruct (decide (0 ≤ cutoffIndex < Z.of_nat (length players))%Z) as [Hc|Hc].
  - replace (Z.of_nat (length players) - 1)%Z
      with (Z.of_nat (length players - 1)) by lia.
    destruct (quickSelect_loop_spec (Z.to_nat cutoffIndex) (length players)
                players 0 (length players - 1))
      as (v & Hrun & Hperm & Hsplit); [lia | lia | lia | lia | | |].
    + intros a b x y Hab. lia.
    + intros a b x y Hab _ Hy. apply lookup_lt_Some in Hy. lia.
    + rewrite Z2Nat.id in Hrun by lia.
      exists v. split_and!; [exact Hrun | done | done].
  - destruct (quickSelect_loop_perm cutoffIndex (length players) players 0
                (Z.of_nat (length players) - 1))
      as (v & Hrun & Hperm); [lia | lia | lia |].
    exists v. split_and!; [exact Hrun | done | intros; lia].
Qed.

Lemma quickSelect_splits_at_cutoff_witness :
  (Z.of_nat (length (player <$> [3; 1; 4; 1; 5; 9; 2; 6]%N)) < 2 ^ 31)%Z ∧
  (0 ≤ 5 < Z.of_nat (length (player <$> [3; 1; 4; 1; 5; 9; 2; 6]%N)))%Z ∧
  ∃ v,
    Offline.quickSelect (player <$> [3; 1; 4; 1; 5; 9; 2; 6]%N) 0
      (Z.of_nat (length (player <$> [3; 1; 4; 1; 5; 9; 2; 6]%N)) - 1) 5 = Ok v ∧
    descending_split v (Z.to_nat 5).
Proof.
  split; [reflexivity|]. split; [split; reflexivity || (simpl; lia)|].
  destruct (quickSelect_splits_at_cutoff (player <$> [3; 1; 4; 1; 5; 9; 2; 6]%N) 5)
    as (v & Hrun & _ & Hsplit); [reflexivity|].
  exists v. split; [exact Hrun|]. apply Hsplit. simpl. lia.
Defined.

(** X3.  On every vector of fewer than 2^31 entries [quickSelectRank]
    returns, and what it returns as the top is the tail of the vector as the
    call leaves it: [floor(N/10)] entities, ascending, none of a level above
    an entry left in front of them.  Their levels are the LEAST
    [floor(N/10)] levels of the input, and the vector is rearranged. *)
Theorem quickSelectRank_selects_lowest_tenth (players : list Player) :
  (Z.of_nat (length players) < 2 ^ 31)%Z →
  ∃ r v,
    Offline.quickSelectRank players = Ok (r, v) ∧
    v ≡ₚ players ∧
    top_ r = drop (length players - length players / 10) v ∧
    length (top_ r) = length players / 10 ∧
    ascending (top_ r) ∧
    (∀ x y, x ∈ take (length players - length players / 10) v → y ∈ top_ r →
            (level_ y ≤ level_ x)%N) ∧
    levels (top_ r) = bottom_levels (length players / 10) players ∧
    cutoffs_ r = ∅.
Proof.
  intros Hn. unfold Offline.quickSelectRank.
  pose proof (tenPer_le players) as Hten.
  assert (Offline.tenPer players = length players / 10) as Hdiv by done.
  rewrite <- Hdiv.
  remember (Offline.tenPer players) as d eqn:Hd. clear Hd Hdiv.
  destruct (quickSelect_spec players (length players - d) Hn ltac:(lia))
    as (v & -> & Hperm & Hsplit).
  rewrite bind_Ok. eexists _, _. split; [reflexivity|]. cbn [top_ cutoffs_].
  pose proof (Permutation_length Hperm) as Hlen.
  set (c := length players - d) in *.
  assert (drop c (take c v ++ std_sort player_lt (drop c v))
          = std_sort player_lt (drop c v)) as Hdrop.
  { apply drop_app_length'. rewrite length_take. lia. }
  assert (take c (take c v ++ std_sort player_lt (drop c v)) = take c v) as Htake.
  { apply take_app_length'. rewrite length_take. lia. }
  rewrite Htake, Hdrop.
  assert (length (std_sort player_lt (drop c v)) = d) as Hlentop.
  { rewrite std_sort_length, length_drop. lia. }
  assert (Hdom : ∀ x y, x ∈ take c v → y ∈ std_sort player_lt (drop c v) →
                        (level_ y ≤ level_ x)%N).
  { intros x y Hx Hy. rewrite std_sort_perm in Hy.
    apply list_elem_of_lookup in Hx as [a Ha].
    apply list_elem_of_lookup in Hy as [b Hb].
    apply lookup_take_Some in Ha as [Ha Hac]. rewrite lookup_drop in Hb.
    apply (Hsplit a (c + b)); [lia | done | done]. }
  split_and!; [| done | done | apply std_sort_player_lt_ascending | done | | done].
  - by rewrite std_sort_perm, take_drop.
  - rewrite <- Hlentop. apply (bottom_levels_split players (take c v)).
    + by rewrite std_sort_perm, take_drop.
    + done.
    + apply std_sort_player_lt_ascending.
Qed.

Lemma quickSelectRank_selects_lowest_tenth_witness :
  (Z.of_nat (length (player <$> [7; 3; 9; 1; 8; 2; 10; 4; 6; 5; 11]%N)) < 2 ^ 31)%Z ∧
  ∃ r v,
    Offline.quickSelectRank (player <$> [7; 3; 9; 1; 8; 2; 10; 4; 6; 5; 11]%N)
    = Ok (r, v) ∧
    levels (top_ r) = [1%N].
Proof.
  split; [reflexivity|].
  destruct (quickSelectRank_selects_lowest_tenth
              (player <$> [7; 3; 9; 1; 8; 2; 10; 4; 6; 5; 11]%N))
    as (r & v & Hrun & _ & _ & _ & _ & _ & Hlev & _); [reflexivity|].
  exists r, v. split; [exact Hrun | exact Hlev].
Defined.

Lemma quickSort_rec_spec fuel : ∀ v (low : nat) (high : Z),
  (Z.of_nat (length v) < 2 ^ 31)%Z →
  (-1 ≤ high < Z.of_nat (length v))%Z →
  (high - Z.of_nat low ≤ Z.of_nat fuel)%Z →
  ∃ v',
    Offline.quickSort_rec fuel v (Z.of_nat low) high = Ok v' ∧
    v' ≡ₚ v ∧
    (∀ j, j < low ∨ (high < Z.of_nat j)%Z → v' !! j = v !! j) ∧
    (∀ j, low ≤ j → (Z.of_nat j ≤ high)%Z →
          ∃ j', low ≤ j' ∧ (Z.of_nat j' ≤ high)%Z ∧ v' !! j = v !! j') ∧
    (∀ a b x y, low ≤ a → a < b → (Z.of_nat b ≤ high)%Z →
                v' !! a = Some x → v' !! b = Some y → (level_ y ≤ level_ x)%N).
Proof.
  induction fuel as [|fuel IH]; intros v low high Hint Hhigh Hfuel;
    cbn [Offline.quickSort_rec];
    destruct (Z.ltb_spec (Z.of_nat low) high) as [Hlt|Hge]; [lia | | |].
  1, 3: exists v; split_and!; [done | done | done | | intros; lia];
        intros j ? ?; exists j; done.
  destruct (partition_spec v low (Z.to_nat high) ltac:(lia) ltac:(lia) ltac:(lia))
    as (v1 & p & pv & Hpart & Hp & Hpv & HA & HB & Hre).
  rewrite Z2Nat.id in Hpart by lia. rewrite Hpart, bind_Ok.
  pose proof (rearranged_length _ _ _ _ Hre) as Hlen1.
  destruct Hre as (Hperm1 & Hout1 & Hin1).
  rewrite (int_val_small (Z.of_nat p - 1)), bind_Ok by lia.
  destruct (IH v1 low (Z.of_nat p - 1)%Z)
    as (v2 & -> & Hperm2 & Hout2 & Hin2 & Hsort2); [lia | lia | lia |].
  rewrite bind_Ok.
  pose proof (Permutation_length Hperm2) as Hlen2.
  rewrite (int_val_small (Z.of_nat p + 1)), bind_Ok by lia.
  replace (Z.of_nat p + 1)%Z with (Z.of_nat (S p)) by lia.
  destruct (IH v2 (S p) high)
    as (v3 & -> & Hperm3 & Hout3 & Hin3 & Hsort3); [lia | lia | lia |].
  assert (Hpivot : v3 !! p = Some pv).
  { rewrite Hout3, Hout2 by lia. done. }
  assert (Hfront : ∀ j x, low ≤ j < p → v3 !! j = Some x →
                          (level_ pv ≤ level_ x)%N).
  { intros j x Hj. rewrite Hout3 by lia.
    destruct (Hin2 j ltac:(lia) ltac:(lia)) as (j1 & ? & ? & ->).
    apply HA. lia. }
  assert (Hback : ∀ j x, p < j → (Z.of_nat j ≤ high)%Z → v3 !! j = Some x →
                         (level_ x < level_ pv)%N).
  { intros j x Hj Hjh.
    destruct (Hin3 j ltac:(lia) Hjh) as (j2 & ? & ? & ->).
    rewrite Hout2 by lia. apply HB. lia. }
  exists v3. split_and!; [done | | | |].
  - by rewrite Hperm3, Hperm2.
  - intros j Hj. rewrite Hout3, Hout2, Hout1 by lia. done.
  - intros j Hj Hjh.
    assert (∃ j2, low ≤ j2 ∧ (Z.of_nat j2 ≤ high)%Z ∧ v3 !! j = v2 !! j2)
      as (j2 & ? & ? & ->).
    { destruct (decide (S p ≤ j)).
      - destruct (Hin3 j ltac:(lia) Hjh) as (j2 & ? & ? & ->).
        exists j2. split_and!; [lia | lia | done].
      - exists j. split_and!; [lia | lia |]. apply Hout3. lia. }
    assert (∃ j1, low ≤ j1 ∧ (Z.of_nat j1 ≤ high)%Z ∧ v2 !! j2 = v1 !! j1)
      as (j1 & ? & ? & ->).
    { destruct (decide (j2 < p)).
      - destruct (Hin2 j2 ltac:(lia) ltac:(lia)) as (j1 & ? & ? & ->).
        exists j1. split_and!; [lia | lia | done].
      - exists j2. split_and!; [lia | lia |]. apply Hout2. lia. }
    destruct (Hin1 j1 ltac:(lia)) as (j' & ? & ->).
    exists j'. split_and!; [lia | lia | done].
  - intros a b x y Ha Hab Hb Hx Hy.
    destruct (decide (b < p)).
    { rewrite Hout3 in Hx, Hy by lia. apply (Hsort2 a b); [lia | lia | lia | done | done]. }
    destruct (decide (p < a)).
    { apply (Hsort3 a b); [lia | lia | lia | done | done]. }
    assert (level_ pv ≤ level_ x)%N.
    { destruct (decide (a = p)) as [->|]; [simplify_eq; lia|].
      apply (Hfront a); [lia | done]. }
    assert (level_ y ≤ level_ pv)%N; [|lia].
    destruct (decide (b = p)) as [->|]; [simplify_eq; lia|].
    apply N.lt_le_incl, (Hback b); [lia | lia | done].
Qed.

(** X4.  On a range [low..high] inside a vector of fewer than 2^31 entries,
    [quickSort] returns with the range sorted in DESCENDING order of level
    (no later entry of the range has a level above an earlier one), the
    entries of the range rearranged among themselves and the rest of the
    vector untouched. *)
Theorem quickSort_sorts_range_descending (players : list Player) (low high : nat) :
  (Z.of_nat (length players) < 2 ^ 31)%Z → high < length players →
  ∃ v,
    Offline.quickSort players (Z.of_nat low) (Z.of_nat high) = Ok v ∧
    v ≡ₚ players ∧
    (∀ j, j < low ∨ high < j → v !! j = players !! j) ∧
    (∀ a b x y, low ≤ a → a < b → b ≤ high →
                v !! a = Some x → v !! b = Some y → (level_ y ≤ level_ x)%N).
Proof.
  intros Hn Hhigh. unfold Offline.quickSort.
  destruct (quickSort_rec_spec (length players) players low (Z.of_nat high))
    as (v & Hrun & Hperm & Hout & _ & Hsort); [lia | lia | lia |].
  exists v. split_and!; [done | done | |].
  - intros j Hj. apply Hout. lia.
  - intros a b x y Ha Hab Hb. apply Hsort; lia.
Qed.

Lemma quickSort_sorts_range_descending_witness :
  (Z.of_nat (length (player <$> [3; 1; 4; 1; 5; 9; 2; 6]%N)) < 2 ^ 31)%Z ∧
  5 < length (player <$> [3; 1; 4; 1; 5; 9; 2; 6]%N) ∧
  ∃ v,
    Offline.quickSort (player <$> [3; 1; 4; 1; 5; 9; 2; 6]%N) (Z.of_nat 2) (Z.of_nat 5)
    = Ok v ∧
    v ≡ₚ player <$> [3; 1; 4; 1; 5; 9; 2; 6]%N ∧
    levels v = [3; 1; 9; 5; 4; 1; 2; 6]%N.
Proof.
  split; [reflexivity|]. split; [simpl; lia|].
  destruct (quickSort_sorts_range_descending
              (player <$> [3; 1; 4; 1; 5; 9; 2; 6]%N) 2 5)
    as (v & Hrun & Hperm & _); [reflexivity | simpl; lia |].
  exists v. split; [exact Hrun|]. split; [exact Hperm|].
  pose proof Hrun as Hval. vm_compute in Hval. injection Hval as <-. reflexivity.
Defined.

(** ** [Online::replaceMin] *)

(** X5.  On a non-empty heap of fewer than 2^30 entries [replaceMin] returns;
    the target has taken the place of the old root and nothing else has
    changed but the order; and if the vector was a min-heap by level, it is
    one again, with an entry of least level at the root. *)
Theorem replaceMin_restores_min_heap (v : list Player) (target : Player) :
  v ≠ [] → (Z.of_nat (length v) < 2 ^ 30)%Z →
  ∃ v',
    Online.replaceMin v target = Ok v' ∧
    v' ≡ₚ target :: tail v ∧
    (is_heap level_gt v →
     is_heap level_gt v' ∧
     ∀ r x, v' !! 0 = Some r → x ∈ v' → (level_ r ≤ level_ x)%N).
Proof.
  intros Hne Hsmall.
  destruct (replaceMin_sift v target Hne) as [Hrun|[_ Hover]]; [|lia].
  destruct v as [|f b]; [done|]. cbn [list_insert insert] in Hrun.
  eexists. split; [exact Hrun|]. split.
  - by rewrite sift_down_perm.
  - intros Hheap.
    assert (is_heap level_gt (sift_down level_gt (<[0:=target]> (f :: b)) 0)) as Hheap'.
    { apply (sift_down_heap _ level_gt_asym level_gt_negtrans).
      by apply (heap_from_replace_root _ f). }
    split; [exact Hheap'|].
    intros r x Hr Hx. by apply (min_heap_root _ r x Hheap').
Qed.

Lemma replaceMin_restores_min_heap_witness :
  player <$> [1; 5; 9]%N ≠ [] ∧
  (Z.of_nat (length (player <$> [1; 5; 9]%N)) < 2 ^ 30)%Z ∧
  ∃ v',
    Online.replaceMin (player <$> [1; 5; 9]%N) (player 7) = Ok v' ∧
    v' ≡ₚ player 7 :: tail (player <$> [1; 5; 9]%N).
Proof.
  split; [discriminate|]. split; [reflexivity|].
  destruct (replaceMin_restores_min_heap (player <$> [1; 5; 9]%N) (player 7))
    as (v' & Hrun & Hperm & _); [discriminate | reflexivity |].
  exists v'. split; [exact Hrun | exact Hperm].
Defined.

(** ** [Offline::heapRank] and the caller's vector *)

Lemma heapRank_pops_heap k : ∀ j h t,
  k ≤ length h → length t = j → is_heap player_lt h →
  ∃ h' t',
    foldl (λ v i, pop_heap player_lt v (length v - i)) (h ++ t) (seq j k) = h' ++ t' ∧
    length t' = j + k ∧ length h' + k = length h ∧ is_heap player_lt h'.
Proof.
  induction k as [|k IH]; intros j h t Hk Hj Hheap.
  { exists h, t. split_and!; [done | lia | lia | done]. }
  cbn [seq foldl].
  assert (length (h ++ t) - j = length h) as -> by (rewrite length_app; lia).
  destruct (pop_heap_spec _ player_lt_asym player_lt_negtrans h t)
    as (r & h1 & -> & Hr & Hheap1 & Hperm);
    [intros ->; simpl in Hk; lia | done |].
  apply Permutation_length in Hperm. simpl in Hperm.
  destruct (IH (S j) h1 (r :: t)) as (h' & t' & Hrun & Hlen & Hlen' & Hheap');
    [lia | simpl; lia | done |].
  exists h', t'. split_and!; [done | lia | lia | done].
Qed.

(** X6.  [heapRank] leaves the caller's vector rearranged: the top it
    returns is the tail of the vector, the [N - floor(N/10)] entries in
    front of it are still a max-heap by level, and none of them has a level
    above an entry of the top. *)
Theorem heapRank_leaves_heap_and_top (players : list Player) :
  (Offline.heapRank players).2 ≡ₚ players ∧
  top_ (Offline.heapRank players).1
  = drop (length players - length players / 10) (Offline.heapRank players).2 ∧
  is_heap player_lt
    (take (length players - length players / 10) (Offline.heapRank players).2) ∧
  (∀ x y, x ∈ take (length players - length players / 10) (Offline.heapRank players).2 →
          y ∈ top_ (Offline.heapRank players).1 → (level_ x ≤ level_ y)%N).
Proof.
  destruct (heapRank_spec players)
    as (h & t & Hv & Htop & _ & Hlen & _ & Hdom & Hperm).
  pose proof (Permutation_length Hperm) as Hlenp. rewrite length_app in Hlenp.
  assert (length h = length players - length players / 10) as Hlenh by lia.
  rewrite Hv, Htop, <- Hlenh, take_app_length, drop_app_length.
  split_and!; [done | done | | done].
  pose proof (make_heap_is_heap _ player_lt_asym player_lt_negtrans players) as Hheap.
  pose proof (make_heap_length player_lt players) as Hlenm.
  destruct (heapRank_pops_heap (length players / 10) 0 (make_heap player_lt players) [])
    as (h' & t' & Hrun & Hlent & Hlenh' & Hheap'); [lia | done | done |].
  rewrite app_nil_r in Hrun.
  unfold Offline.heapRank, Offline.tenPer in Hv. cbn [snd] in Hv.
  rewrite Hrun in Hv.
  assert (h' = h) as <-; [|done].
  apply (app_inj_1 h' h t' t); [lia | done].
Qed.

Lemma heapRank_leaves_heap_and_top_witness :
  player 9 ∈ take (10 - 10 / 10)
    (Offline.heapRank (player <$> [1; 2; 3; 4; 5; 6; 7; 8; 9; 10]%N)).2 ∧
  player 10 ∈ top_ (Offline.heapRank (player <$> [1; 2; 3; 4; 5; 6; 7; 8; 9; 10]%N)).1 ∧
  (level_ (player 9) ≤ level_ (player 10))%N.
Proof.
  assert (H9 : player 9 ∈ take (10 - 10 / 10)
            (Offline.heapRank (player <$> [1; 2; 3; 4; 5; 6; 7; 8; 9; 10]%N)).2).
  { apply (list_elem_of_lookup_2 _ 0). vm_compute. reflexivity. }
  assert (H10 : player 10 ∈
            top_ (Offline.heapRank (player <$> [1; 2; 3; 4; 5; 6; 7; 8; 9; 10]%N)).1).
  { apply (list_elem_of_lookup_2 _ 0). vm_compute. reflexivity. }
  split; [exact H9|]. split; [exact H10|].
  destruct (heapRank_leaves_heap_and_top
              (player <$> [1; 2; 3; 4; 5; 6; 7; 8; 9; 10]%N)) as (_ & _ & _ & Hdom).
  exact (Hdom (player 9) (player 10) H9 H10).
Defined.

(** ** [Online::rankIncoming] at its edges *)

(** X7.  With a capacity of zero and an entity still to come, [rankIncoming]
    takes that entity from the source and then compares it with the front
    of the buffer, which is empty: a read outside the vector. *)
Theorem rankIncoming_zero_capacity_reads_empty_front (s : VectorPlayerStream.t) :
  VectorPlayerStream.wf s → VectorPlayerStream.remaining s ≠ 0%Z →
  Online.rankIncoming s 0 = Err OutOfRange.
Proof.
  intros Hwf Hrem. unfold Online.rankIncoming.
  destruct (nextPlayer_Ok s Hwf Hrem) as (p & Hp & Hnext & _).
  pose proof (lookup_lt_Some _ _ _ Hp) as Hlt.
  destruct (length (players_ s)) as [|fuel] eqn:Hlen; [lia|].
  cbn [Online.rankIncoming_loop Online.stream Online.top_players].
  rewrite remaining_wf in * by done. rewrite Hlen in *.
  destruct (Z.ltb_spec 0 (Z.of_nat (S fuel) - Z.of_nat (currentIndex_ s))); [|lia].
  rewrite Hnext, bind_Ok. done.
Qed.

Lemma rankIncoming_zero_capacity_reads_empty_front_witness :
  VectorPlayerStream.wf (VectorPlayerStream.new (player <$> [5; 1; 9; 2; 8; 3]%N)) ∧
  VectorPlayerStream.remaining (VectorPlayerStream.new (player <$> [5; 1; 9; 2; 8; 3]%N))
  ≠ 0%Z ∧
  Online.rankIncoming (VectorPlayerStream.new (player <$> [5; 1; 9; 2; 8; 3]%N)) 0
  = Err OutOfRange.
Proof.
  split; [exact wf_scenario|]. split; [discriminate|].
  apply (rankIncoming_zero_capacity_reads_empty_front _ wf_scenario). discriminate.
Defined.

(** X8.  On a source with nothing remaining, [rankIncoming] returns the
    empty top and no checkpoints for every capacity, and leaves the source
    as it is. *)
Theorem rankIncoming_exhausted_source_empty_outcome
    (s : VectorPlayerStream.t) (k : nat) :
  VectorPlayerStream.remaining s = 0%Z →
  Online.rankIncoming s k = Ok (mkRankingResult [] ∅, s).
Proof.
  intros Hrem. unfold Online.rankIncoming.
  assert (Online.rankIncoming_loop (length (players_ s)) k (Online.mkState s [] ∅ 0)
          = Ok (Online.mkState s [] ∅ 0)) as ->.
  { destruct (length (players_ s)); cbn [Online.rankIncoming_loop Online.stream];
      by rewrite Hrem. }
  done.
Qed.

Lemma rankIncoming_exhausted_source_empty_outcome_witness :
  VectorPlayerStream.remaining (VectorPlayerStream.mk [player 5; player 1] 2) = 0%Z ∧
  Online.rankIncoming (VectorPlayerStream.mk [player 5; player 1] 2) 3
  = Ok (mkRankingResult [] ∅, VectorPlayerStream.mk [player 5; player 1] 2).
Proof.
  split; [reflexivity|].
  apply (rankIncoming_exhausted_source_empty_outcome
           (VectorPlayerStream.mk [player 5; player 1] 2) 3).
  reflexivity.
Defined.

Lemma rankIncoming_loop_final_stream k fuel : ∀ st st',
  VectorPlayerStream.wf (Online.stream st) →
  Online.rankIncoming_loop fuel k st = Ok st' →
  players_ (Online.stream st') = players_ (Online.stream st) ∧
  currentIndex_ (Online.stream st') = length (players_ (Online.stream st)).
Proof.
  induction fuel as [|fuel IH]; intros [s buf cuts n] st' Hwf;
    cbn [Online.rankIncoming_loop Online.stream Online.top_players
         Online.cutoffs Online.players_processed] in *;
    pose proof (remaining_pending s Hwf) as Hrem;
    destruct (VectorPlayerStream.pending s) as [|p l] eqn:Hpend.
  1, 3: rewrite Hrem; simpl; intros [= <-]; split; [done|];
        apply (f_equal length) in Hpend;
        unfold VectorPlayerStream.pending in Hpend; rewrite length_drop in Hpend;
        destruct Hwf as [Hle _]; simpl in *; lia.
  - rewrite Hrem. simpl. done.
  - destruct (nextPlayer_Ok s Hwf) as (p' & _ & Hnext & Hwf' & _).
    { rewrite Hrem. simpl. lia. }
    rewrite Hrem, Hnext. cbn [length].
    destruct (Z.ltb_spec 0 (Z.of_nat (S (length l)))); [|lia].
    rewrite bind_Ok. cbv zeta.
    match goal with |- (?m ≫= _) = _ → _ => destruct m as [top|] end; [|done].
    rewrite bind_Ok.
    match goal with |- (?m ≫= _) = _ → _ => destruct m as [cuts'|] end; [|done].
    rewrite bind_Ok. intros Hrun.
    apply IH in Hrun; [|exact Hwf']. simpl in Hrun. done.
Qed.

(** X9.  Whenever [rankIncoming] returns, it has drained the source: the
    players of the stream are as before, the cursor stands at their end,
    [remaining()] is zero and a further [nextPlayer] throws. *)
Theorem rankIncoming_drains_source
    (s : VectorPlayerStream.t) (k : nat) (r : RankingResult) (s' : VectorPlayerStream.t) :
  VectorPlayerStream.wf s →
  Online.rankIncoming s k = Ok (r, s') →
  players_ s' = players_ s ∧
  currentIndex_ s' = length (players_ s) ∧
  VectorPlayerStream.remaining s' = 0%Z ∧
  VectorPlayerStream.nextPlayer s' = Err Exhausted.
Proof.
  intros Hwf. unfold Online.rankIncoming.
  destruct (Online.rankIncoming_loop _ _ _) as [st|] eqn:Hloop; [|done].
  rewrite bind_Ok.
  match goal with |- (?m ≫= _) = _ → _ => destruct m as [cuts|] end; [|done].
  rewrite bind_Ok. intros [= _ <-].
  destruct (rankIncoming_loop_final_stream _ _ (Online.mkState s [] ∅ 0) st Hwf Hloop)
    as [Hplayers Hidx].
  simpl in Hplayers, Hidx. split_and!; [done | done | |].
  - unfold VectorPlayerStream.remaining, size_t_of_Z.
    rewrite Hplayers, Hidx, Z.sub_diag. done.
  - unfold VectorPlayerStream.nextPlayer. rewrite Hplayers, Hidx.
    by rewrite Nat.leb_refl.
Qed.

Lemma rankIncoming_drains_source_witness :
  VectorPlayerStream.wf (VectorPlayerStream.new (player <$> [5; 1; 9; 2; 8; 3]%N)) ∧
  ∃ r s',
    Online.rankIncoming (VectorPlayerStream.new (player <$> [5; 1; 9; 2; 8; 3]%N)) 3
    = Ok (r, s') ∧
    currentIndex_ s' = 6 ∧ VectorPlayerStream.nextPlayer s' = Err Exhausted.
Proof.
  split; [exact wf_scenario|].
  eexists _, _. split; [vm_compute; reflexivity|].
  edestruct (rankIncoming_drains_source
               (VectorPlayerStream.new (player <$> [5; 1; 9; 2; 8; 3]%N)) 3)
    as (_ & Hidx & _ & Hnext); [exact wf_scenario | vm_compute; reflexivity |].
  split; [exact Hidx | exact Hnext].
Defined.

(** ** [Online::rankIncoming]: checkpoints and top *)




(** X11.  For a capacity [k] of at least one, the keys of the checkpoints
    that [rankIncoming] returns are exactly the positive multiples of [k] up
    to the number [n] of entities processed, and [n] itself when it is not
    zero. *)
Theorem rankIncoming_checkpoint_keys
    (s : VectorPlayerStream.t) (k : nat) (r : RankingResult) (s' : VectorPlayerStream.t) :
  VectorPlayerStream.wf s → 1 ≤ k →
  Online.rankIncoming s k = Ok (r, s') →
  ∀ c, is_Some (cutoffs_ r !! c) ↔
       0 < c ≤ length (VectorPlayerStream.pending s) ∧
       (c mod k = 0 ∨ c = length (VectorPlayerStream.pending s)).
Proof.
  intros Hwf Hk Hrun c.
  destruct (rankIncoming_outcome s k r s' Hwf Hk Hrun) as (_ & _ & Hcuts).
  split.
  - intros [v Hv]. apply Hcuts in Hv as (? & ? & _). done.
  - intros [Hc Hkey].
    destruct (bar_is_Some k (take c (VectorPlayerStream.pending s)) Hk)
      as (f & b & _ & Hbar).
    { intros Hnil. apply (f_equal length) in Hnil.
      rewrite length_take in Hnil. simpl in Hnil. lia. }
    exists (level_ f). apply Hcuts. done.
Qed.

Lemma rankIncoming_checkpoint_keys_witness :
  VectorPlayerStream.wf (VectorPlayerStream.new (player <$> [5; 1; 9; 2; 8; 3]%N)) ∧
  1 ≤ 4 ∧
  ∃ r s',
    Online.rankIncoming (VectorPlayerStream.new (player <$> [5; 1; 9; 2; 8; 3]%N)) 4
    = Ok (r, s') ∧
    is_Some (cutoffs_ r !! 4) ∧ is_Some (cutoffs_ r !! 6) ∧ ¬ is_Some (cutoffs_ r !! 3).
Proof.
  split; [exact wf_scenario|]. split; [lia|].
  eexists _, _. split; [vm_compute; reflexivity|].
  pose proof (rankIncoming_checkpoint_keys
                (VectorPlayerStream.new (player <$> [5; 1; 9; 2; 8; 3]%N)) 4 _ _
                wf_scenario ltac:(lia) ltac:(vm_compute; reflexivity)) as Hkeys.
  split; [|split].
  - apply Hkeys. simpl. split; [lia | by left].
  - apply Hkeys. simpl. split; [lia | by right].
  - intros H3. apply Hkeys in H3 as [_ [H|H]]; simpl in H; discriminate H.
Defined.

(** X12.  For a capacity of at least one, the entities of the top that
    [rankIncoming] returns are entities of the stream, each as often as it
    came, and no entity left out has a level above an entity of the top
    (levels may tie). *)
Theorem rankIncoming_top_drawn_from_stream
    (s : VectorPlayerStream.t) (k : nat) (r : RankingResult) (s' : VectorPlayerStream.t) :
  VectorPlayerStream.wf s → 1 ≤ k →
  Online.rankIncoming s k = Ok (r, s') →
  ∃ rest, VectorPlayerStream.pending s ≡ₚ top_ r ++ rest ∧
          ∀ x y, x ∈ top_ r → y ∈ rest → (level_ y ≤ level_ x)%N.
Proof.
  intros Hwf Hk Hrun.
  destruct (rankIncoming_outcome s k r s' Hwf Hk Hrun) as (_ & Htop & _).
  destruct (buffer_after_inv k (VectorPlayerStream.pending s) Hk)
    as (_ & _ & rest & Hperm & Hdom).
  exists rest. rewrite Htop. split; [by rewrite std_sort_perm|].
  intros x y Hx Hy. rewrite std_sort_perm in Hx. by apply Hdom.
Qed.

Lemma rankIncoming_top_drawn_from_stream_witness :
  VectorPlayerStream.wf (VectorPlayerStream.new (player <$> [5; 1; 9; 2; 8; 3]%N)) ∧
  1 ≤ 3 ∧
  ∃ r s' rest,
    Online.rankIncoming (VectorPlayerStream.new (player <$> [5; 1; 9; 2; 8; 3]%N)) 3
    = Ok (r, s') ∧
    player <$> [5; 1; 9; 2; 8; 3]%N ≡ₚ top_ r ++ rest.
Proof.
  split; [exact wf_scenario|]. split; [lia|].
  destruct (rankIncoming_returns _ 3 wf_scenario) as (r & s' & Hrun);
    [lia | reflexivity |].
  destruct (rankIncoming_top_drawn_from_stream _ 3 r s' wf_scenario ltac:(lia) Hrun)
    as (rest & Hperm & _).
  exists r, s', rest. split; [exact Hrun | exact Hperm].
Defined.

(** X13.  Once at least [k] entities have gone through (and [k] is at least
    one), the checkpoints that [rankIncoming] returns have the number of
    entities as a key, and the value there is the least level of the
    returned top. *)
Theorem rankIncoming_final_checkpoint_is_min_of_top
    (s : VectorPlayerStream.t) (k : nat) (r : RankingResult) (s' : VectorPlayerStream.t) :
  VectorPlayerStream.wf s → 1 ≤ k → k ≤ length (VectorPlayerStream.pending s) →
  Online.rankIncoming s k = Ok (r, s') →
  ∃ v, cutoffs_ r !! length (VectorPlayerStream.pending s) = Some v ∧
       minimum (levels (top_ r)) = Some v ∧
       v ∈ levels (top_ r) ∧
       ∀ x, x ∈ levels (top_ r) → (v ≤ x)%N.
Proof.
  intros Hwf Hk Hlen Hrun.
  destruct (rankIncoming_final_checkpoint_full s k r s' Hwf Hk Hlen Hrun)
    as [Heq [v Hv]].
  exists v. rewrite Hv in Heq. split_and!; [done | done | |].
  - destruct (levels (top_ r)) as [|a l]; [done|]. injection Heq as ->.
    apply foldr_min_elem.
  - intros x Hx. destruct (levels (top_ r)) as [|a l]; [done|]. injection Heq as ->.
    by apply foldr_min_le.
Qed.

Lemma rankIncoming_final_checkpoint_is_min_of_top_witness :
  VectorPlayerStream.wf (VectorPlayerStream.new (player <$> [5; 1; 9; 2; 8; 3]%N)) ∧
  1 ≤ 4 ∧
  4 ≤ length (VectorPlayerStream.pending
                (VectorPlayerStream.new (player <$> [5; 1; 9; 2; 8; 3]%N))) ∧
  ∃ r s' v,
    Online.rankIncoming (VectorPlayerStream.new (player <$> [5; 1; 9; 2; 8; 3]%N)) 4
    = Ok (r, s') ∧
    cutoffs_ r !! 6 = Some v ∧ minimum (levels (top_ r)) = Some v.
Proof.
  split; [exact wf_scenario|]. split; [lia|]. split; [simpl; lia|].
  destruct (rankIncoming_returns _ 4 wf_scenario) as (r & s' & Hrun);
    [lia | reflexivity |].
  destruct (rankIncoming_final_checkpoint_is_min_of_top _ 4 r s' wf_scenario
              ltac:(lia) ltac:(simpl; lia) Hrun) as (v & Hv & Hmin & _).
  exists r, s', v. split; [exact Hrun|]. split; [exact Hv | exact Hmin].
Defined.

(** ** The stream, from its construction on *)

Lemma nextPlayers_spec n : ∀ s,
  VectorPlayerStream.wf s →
  (n ≤ length (VectorPlayerStream.pending s) →
   nextPlayers n s
   = Ok (take n (VectorPlayerStream.pending s),
         VectorPlayerStream.mk (players_ s) (currentIndex_ s + n))) ∧
  (length (VectorPlayerStream.pending s) < n → nextPlayers n s = Err Exhausted).
Proof.
  induction n as [|n IH]; intros s Hwf.
  { split; [|lia]. intros _. cbn. rewrite Nat.add_0_r. by destruct s. }
  pose proof (remaining_pending s Hwf) as Hrem.
  cbn [nextPlayers].
  destruct (VectorPlayerStream.pending s) as [|p l] eqn:Hpend.
  - split; [simpl; lia|]. intros _.
    assert (VectorPlayerStream.nextPlayer s = Err Exhausted) as ->; [|done].
    apply (f_equal length) in Hpend.
    unfold VectorPlayerStream.pending in Hpend. rewrite length_drop in Hpend.
    unfold VectorPlayerStream.nextPlayer.
    destruct (Nat.leb_spec (length (players_ s)) (currentIndex_ s)); [done|].
    simpl in Hpend. lia.
  - destruct (nextPlayer_Ok s Hwf) as (p' & _ & Hnext & Hwf' & Hpend').
    { rewrite Hrem. simpl. lia. }
    rewrite Hpend in Hpend'. injection Hpend' as <- Hl.
    rewrite Hnext, bind_Ok.
    destruct (IH _ Hwf') as [Hok Herr]. rewrite <- Hl in Hok, Herr. simpl in *.
    split; intros Hn.
    + rewrite Hok by lia. rewrite bind_Ok. do 3 f_equal. lia.
    + by rewrite Herr by lia.
Qed.

(** X14.  A stream constructed from fewer than 2^64 players hands them out
    in their order: [n] successive calls of [nextPlayer], for [n] at most
    their number, return the first [n] players and leave [remaining()] at
    the number of the others; one call more than there are players ends in
    the exception. *)
Theorem fresh_stream_hands_out_players_in_order (players : list Player) (n : nat) :
  (Z.of_nat (length players) < 2 ^ 64)%Z →
  (n ≤ length players →
   ∃ s', nextPlayers n (VectorPlayerStream.new players) = Ok (take n players, s') ∧
         VectorPlayerStream.remaining s' = (Z.of_nat (length players) - Z.of_nat n)%Z ∧
         VectorPlayerStream.pending s' = drop n players) ∧
  (length players < n →
   nextPlayers n (VectorPlayerStream.new players) = Err Exhausted).
Proof.
  intros Hsize.
  destruct (nextPlayers_spec n (VectorPlayerStream.new players) (wf_new _ Hsize))
    as [Hok Herr].
  unfold VectorPlayerStream.pending in Hok, Herr. simpl in Hok, Herr.
  split; [|done]. intros Hn. eexists. split; [by apply Hok|].
  split; [|done]. rewrite remaining_wf; [done|]. split; simpl; [lia | done].
Qed.

Lemma fresh_stream_hands_out_players_in_order_witness :
  (Z.of_nat (length (player <$> [5; 1; 9; 2; 8; 3]%N)) < 2 ^ 64)%Z ∧
  2 ≤ length (player <$> [5; 1; 9; 2; 8; 3]%N) ∧
  length (player <$> [5; 1; 9; 2; 8; 3]%N) < 7 ∧
  (∃ s', nextPlayers 2 (VectorPlayerStream.new (player <$> [5; 1; 9; 2; 8; 3]%N))
         = Ok (take 2 (player <$> [5; 1; 9; 2; 8; 3]%N), s') ∧
         VectorPlayerStream.remaining s' = 4%Z) ∧
  nextPlayers 7 (VectorPlayerStream.new (player <$> [5; 1; 9; 2; 8; 3]%N))
  = Err Exhausted.
Proof.
  split; [reflexivity|]. split; [simpl; lia|]. split; [simpl; lia|].
  split.
  - destruct (fresh_stream_hands_out_players_in_order
                (player <$> [5; 1; 9; 2; 8; 3]%N) 2) as [Hok _]; [reflexivity|].
    destruct Hok as (s' & Hrun & Hrem & _); [simpl; lia|].
    exists s'. split; [exact Hrun | exact Hrem].
  - destruct (fresh_stream_hands_out_players_in_order
                (player <$> [5; 1; 9; 2; 8; 3]%N) 7) as [_ Herr]; [reflexivity|].
    apply Herr. simpl. lia.
Defined.
